(** * A shallow embedding of the emitter of [src/index.ts]

    The first part follows the layout of the source file: the
    segment-wildcard matcher [matchWildcard], then the [Emitter] class
    (configuration, subscribe, emit, pause and resume, cleanup, and the
    internal [dispatch], [collectListeners] and [pruneOnce]).  The second
    part introduces the vocabulary of the statements, the third proves
    them.

    Modelling choices.
    - Event names and patterns are strings of 8-bit characters; segments
      are compared as strings.
    - Priorities and the two thresholds are integers ([Z]), as the
      specification has them; the source type is [number].
    - A listener entry carries an allocation tag, so that the reference
      comparisons of the source ([indexOf], [===]) become equality of
      entries.
    - The emitter is a record that every operation takes and returns.  A
      callback is an index into an environment that gives, for each
      callback, the state it leaves and whether it returns or throws: a
      listener can therefore call back into the emitter.
    - The synchronous operations are embedded.  [emitAsync],
      [dispatchAsync] and [resumeAsync], which await each listener,
      [wait] (a [once] whose listener resolves a promise) and
      [eventNames] are not. *)

From Stdlib Require Import ZArith Lia Ascii String.
From stdpp Require Import gmap strings list fin_maps sorting.

Local Open Scope string_scope.
Local Open Scope list_scope.
Local Open Scope Z_scope.

(** ** Strings and segments *)

(** The separator regular expression [/[:.]/]. *)
Definition is_sep (c : ascii) : bool :=
  bool_decide (c = ":"%char) || bool_decide (c = "."%char).

(** [String.prototype.split] on a one-character separator class: the result
    never is empty, and the empty string splits into one empty segment. *)
Fixpoint split (s : string) : list string :=
  match s with
  | EmptyString => [EmptyString]
  | String c s' =>
      if is_sep c then EmptyString :: split s'
      else match split s' with
           | seg :: segs => String c seg :: segs
           | [] => [String c EmptyString]
           end
  end.

(** [event.includes("*")]. *)
Fixpoint includes_star (s : string) : bool :=
  match s with
  | EmptyString => false
  | String c s' => bool_decide (c = "*"%char) || includes_star s'
  end.

(** ** Wildcard matching *)

Module Matcher.

(** The four cursors of the loop; [-1] is the source's "no anchor" value. *)
Record cursors := Cursors { pi : Z; ei : Z; starPi : Z; starEi : Z }.

Inductive step_result :=
| Continue (c : cursors)
| ReturnFalse
| LoopExit (c : cursors).

Definition seg_is (parts : list string) (i : Z) (s : string) : bool :=
  bool_decide (parts !! Z.to_nat i = Some s).

Definition seg_eq (pp ep : list string) (i j : Z) : bool :=
  bool_decide (pp !! Z.to_nat i = ep !! Z.to_nat j).

(** One evaluation of the guard and body of the main [while]. *)
Definition step (pp ep : list string) (c : cursors) : step_result :=
  if negb (ei c <? Z.of_nat (length ep)) then LoopExit c
  else if (pi c <? Z.of_nat (length pp)) && seg_is pp (pi c) "**" then
    Continue (Cursors (pi c + 1) (ei c) (pi c) (ei c))
  else if (pi c <? Z.of_nat (length pp))
          && (seg_is pp (pi c) "*" || seg_eq pp ep (pi c) (ei c)) then
    Continue (Cursors (pi c + 1) (ei c + 1) (starPi c) (starEi c))
  else if negb (starPi c =? -1) then
    Continue (Cursors (starPi c + 1) (starEi c + 1) (starPi c) (starEi c + 1))
  else ReturnFalse.

(** The main loop, iterated at most [fuel] times; [None] is fuel
    exhaustion, [Some None] the early [return false]. *)
Fixpoint main_loop (fuel : nat) (pp ep : list string) (c : cursors)
  : option (option cursors) :=
  match fuel with
  | O => None
  | S fuel' =>
      match step pp ep c with
      | Continue c' => main_loop fuel' pp ep c'
      | ReturnFalse => Some None
      | LoopExit c' => Some (Some c')
      end
  end.

(** The second loop: skip trailing [**] segments.  It is structurally
    bounded by the number of pattern segments that remain. *)
Fixpoint skip_stars (n : nat) (pp : list string) (p : Z) : Z :=
  match n with
  | O => p
  | S n' =>
      if (p <? Z.of_nat (length pp)) && seg_is pp p "**"
      then skip_stars n' pp (p + 1) else p
  end.

(** Number of iterations that always suffices (see [main_loop_total]). *)
Definition enough_fuel (pp ep : list string) : nat :=
  ((length ep + 1) * (length pp + 1) + length pp + 1)%nat.

Definition start : cursors := Cursors 0 0 (-1) (-1).

(** What follows the main loop: the early [return false], or the second
    loop and the final comparison. *)
Definition finish (pp : list string) (r : option (option cursors))
  : option bool :=
  match r with
  | None => None
  | Some None => Some false
  | Some (Some c) =>
      Some (skip_stars (length pp) pp (pi c) =? Z.of_nat (length pp))
  end.

(** The matcher on segment sequences. *)
Definition match_parts (pp ep : list string) : option bool :=
  finish pp (main_loop (enough_fuel pp ep) pp ep start).

End Matcher.

(** [matchWildcard(pattern, event)].  The default is never taken:
    [matchWildcard_total] shows that the loop ends within the fuel. *)
Definition matchWildcard (pattern event : string) : bool :=
  default false (Matcher.match_parts (split pattern) (split event)).

(** ** Arrays *)

(** [Array.prototype.sort(cmp)].  The sort is stable (ECMAScript 2019), so
    for a comparator that orders by a key the result is determined: it is
    computed here by insertion, an element going in front of the first
    later element that does not have to precede it. *)
Fixpoint sort_insert {A} (cmp : A → A → Z) (x : A) (l : list A) : list A :=
  match l with
  | [] => [x]
  | y :: l' => if cmp x y <=? 0 then x :: y :: l' else y :: sort_insert cmp x l'
  end.

Definition js_sort {A} (cmp : A → A → Z) (l : list A) : list A :=
  foldr (sort_insert cmp) [] l.

(** [Array.prototype.findIndex(P)] ([None] for [-1]); [indexOf(x)] is
    [findIndex] with the identity test. *)
Fixpoint findIndex {A} (P : A → bool) (l : list A) : option nat :=
  match l with
  | [] => None
  | y :: l' => if P y then Some O else S <$> findIndex P l'
  end.

(** [idx = l.findIndex(P); if (idx !== -1) l.splice(idx, 1)]. *)
Definition splice_found {A} (P : A → bool) (l : list A) : list A :=
  match findIndex P l with
  | Some idx => delete idx l
  | None => l
  end.

(** ** Listener entries *)

(** A callback is named by an index into the environment of listener
    behaviours (see [apply_fn] below). *)
Definition FnId := nat.

(** [StoredListener].  The objects are compared by reference in the source
    ([indexOf], [===]); [ident] is the allocation tag that makes two
    entries created by different [on] calls different values. *)
Record StoredListener := mkStored {
  ident : nat;
  fn : FnId;
  once : bool;
  priority : Z;
}.

#[global] Instance StoredListener_eq_dec : EqDecision StoredListener.
Proof. solve_decision. Defined.

(** An element of [wildcardListeners]. *)
Record WildcardEntry := mkWild {
  pattern : string;
  stored : StoredListener;
}.

#[global] Instance WildcardEntry_eq_dec : EqDecision WildcardEntry.
Proof. solve_decision. Defined.

(** [OnOptions]: both fields are optional. *)
Record OnOptions := mkOptions {
  opt_once : option bool;
  opt_priority : option Z;
}.

Definition no_options : OnOptions := mkOptions None None.

(** What the [off] closure of a [Subscription] captures. *)
Record Subscription := mkSubscription {
  sub_isWild : bool;
  sub_event : string;
  sub_stored : StoredListener;
}.

(** The two comparators handed to [sort]. *)
Definition by_priority (a b : StoredListener) : Z := priority b - priority a.
Definition by_stored_priority (a b : WildcardEntry) : Z :=
  priority (stored b) - priority (stored a).

(** A line written by [console.warn]: event, list length, threshold. *)
Record Warning := mkWarning {
  warn_event : string;
  warn_length : nat;
  warn_max : Z;
}.

(** ** The emitter *)

Section Emitter.

(** Payloads and thrown values are opaque. *)
Context {Payload Err : Type}.

(** The private fields of the class, with two ghost fields: the lines
    written to the console and the number of entries allocated so far. *)
Record Emitter := mkEmitter {
  listeners : gmap string (list StoredListener);
  wildcardListeners : list WildcardEntry;
  maxListeners : Z;
  paused : bool;
  buffer : list (string * Payload);
  maxBufferSize : Z;
  console : list Warning;
  allocated : nat;
}.

Definition set_listeners (m : gmap string (list StoredListener)) (st : Emitter) :=
  mkEmitter m (wildcardListeners st) (maxListeners st) (paused st)
            (buffer st) (maxBufferSize st) (console st) (allocated st).
Definition set_wildcardListeners (w : list WildcardEntry) (st : Emitter) :=
  mkEmitter (listeners st) w (maxListeners st) (paused st)
            (buffer st) (maxBufferSize st) (console st) (allocated st).
Definition set_paused (b : bool) (st : Emitter) :=
  mkEmitter (listeners st) (wildcardListeners st) (maxListeners st) b
            (buffer st) (maxBufferSize st) (console st) (allocated st).
Definition set_buffer (q : list (string * Payload)) (st : Emitter) :=
  mkEmitter (listeners st) (wildcardListeners st) (maxListeners st) (paused st)
            q (maxBufferSize st) (console st) (allocated st).
Definition set_console (c : list Warning) (st : Emitter) :=
  mkEmitter (listeners st) (wildcardListeners st) (maxListeners st) (paused st)
            (buffer st) (maxBufferSize st) c (allocated st).
Definition set_allocated (n : nat) (st : Emitter) :=
  mkEmitter (listeners st) (wildcardListeners st) (maxListeners st) (paused st)
            (buffer st) (maxBufferSize st) (console st) n.

(** The option bag of the constructor call in the tests.  The class
    declares no constructor, so an argument of [new Emitter(...)] is
    evaluated and dropped. *)
Record EmitterOptions := mkEmitterOptions {
  onError : option (Err → string → Emitter → Emitter);
}.

(** Field initialisers of the class. *)
Definition new_Emitter (options : option EmitterOptions) : Emitter :=
  mkEmitter ∅ [] 10 false [] 1000 [] O.

(** *** Configuration *)

Definition setMaxListeners (n : Z) (st : Emitter) : Emitter :=
  mkEmitter (listeners st) (wildcardListeners st) n (paused st)
            (buffer st) (maxBufferSize st) (console st) (allocated st).

Definition setMaxBufferSize (n : Z) (st : Emitter) : Emitter :=
  mkEmitter (listeners st) (wildcardListeners st) (maxListeners st) (paused st)
            (buffer st) n (console st) (allocated st).

(** *** Subscribe *)

Definition on (event : string) (listener : FnId) (options : OnOptions)
    (st : Emitter) : Subscription * Emitter :=
  let stored := mkStored (allocated st) listener
                  (default false (opt_once options))
                  (default 0 (opt_priority options)) in
  let isWild := includes_star event in
  let st := set_allocated (S (allocated st)) st in
  let st :=
    if isWild then
      set_wildcardListeners
        (js_sort by_stored_priority
           (wildcardListeners st ++ [mkWild event stored])) st
    else
      let list := default [] (listeners st !! event) in
      let list := js_sort by_priority (list ++ [stored]) in
      let st := set_listeners (<[event := list]> (listeners st)) st in
      if (0 <? maxListeners st)
         && (maxListeners st <? Z.of_nat (length list))
      then set_console
             (console st ++ [mkWarning event (length list) (maxListeners st)]) st
      else st in
  (mkSubscription isWild event stored, st).

(** The closure [off] of the handle returned by [on]. *)
Definition off (sub : Subscription) (st : Emitter) : Emitter :=
  if sub_isWild sub then
    set_wildcardListeners
      (splice_found (λ w, bool_decide (stored w = sub_stored sub))
         (wildcardListeners st)) st
  else
    match listeners st !! sub_event sub with
    | Some list =>
        let list := splice_found (λ s, bool_decide (s = sub_stored sub)) list in
        if bool_decide (length list = O)
        then set_listeners (delete (sub_event sub) (listeners st)) st
        else set_listeners (<[sub_event sub := list]> (listeners st)) st
    | None => st
    end.

(** [once(event, listener, options)] is [on] with [{...options, once: true}]. *)
Definition once_ (event : string) (listener : FnId) (options : OnOptions)
    (st : Emitter) : Subscription * Emitter :=
  on event listener (mkOptions (Some true) (opt_priority options)) st.

(** *** Inspect *)

Definition listenerCount (event : string) (st : Emitter) : nat :=
  default O (length <$> listeners st !! event).

(** *** Cleanup *)

Definition clear (event : option string) (st : Emitter) : Emitter :=
  match event with
  | Some ev =>
      set_wildcardListeners
        (filter (λ w, pattern w ≠ ev) (wildcardListeners st))
        (set_listeners (delete ev (listeners st)) st)
  | None => set_wildcardListeners [] (set_listeners ∅ st)
  end.

Definition dispose (st : Emitter) : Emitter :=
  set_paused false
    (set_buffer [] (set_wildcardListeners [] (set_listeners ∅ st))).

(** *** Internal: collection and pruning *)

(** [collectListeners(event)]: a fresh array, so what [dispatch] walks is
    not affected by later changes of the registries. *)
Definition collectListeners (event : string) (st : Emitter)
    : list StoredListener :=
  let exact := default [] (listeners st !! event) in
  let wild :=
    stored <$> filter (λ w, matchWildcard (pattern w) event = true)
                      (wildcardListeners st) in
  js_sort by_priority (exact ++ wild).

(** [pruneOnce(event, fired)]. *)
Definition pruneOnce (event : string) (fired : list StoredListener)
    (st : Emitter) : Emitter :=
  let onceFired := filter (λ s, once s = true) fired in
  if bool_decide (length onceFired = O) then st
  else
    let st :=
      match listeners st !! event with
      | Some list =>
          let list :=
            foldl (λ l s, splice_found (λ y, bool_decide (y = s)) l)
                  list onceFired in
          if bool_decide (length list = O)
          then set_listeners (delete event (listeners st)) st
          else set_listeners (<[event := list]> (listeners st)) st
      | None => st
      end in
    set_wildcardListeners
      (foldl (λ ws s, splice_found (λ w, bool_decide (stored w = s)) ws)
             (wildcardListeners st) onceFired) st.

(** *** Publishing *)

(** How a call ends: with a value, or with a thrown error; in both cases
    the emitter is left in some state. *)
Inductive Completion (A : Type) :=
| Normal (v : A) (st : Emitter)
| Throw (e : Err) (st : Emitter).
Global Arguments Normal {A} v st.
Global Arguments Throw {A} e st.

Definition state_of {A} (c : Completion A) : Emitter :=
  match c with Normal _ st | Throw _ st => st end.

(** A call of a listener made by a loop of the emitter.  What the
    listener does while it runs, the publishes it may start itself
    included, is part of its effect on the state and not listed. *)
Definition Call : Type := StoredListener * Payload.

(** What the callbacks do.  A listener is arbitrary code that can reach
    the emitter: it maps the state in which it is called to the state it
    leaves, and returns or throws.  A returned promise is ignored by the
    synchronous dispatch. *)
Variable apply_fn : FnId → Payload → Emitter → Completion unit.

(** [for (const stored of listeners) stored.fn(payload)], with the calls
    made. *)
Fixpoint invoke_all (ls : list StoredListener) (payload : Payload)
    (st : Emitter) : list Call * Completion unit :=
  match ls with
  | [] => ([], Normal tt st)
  | s :: rest =>
      match apply_fn (fn s) payload st with
      | Normal _ st' =>
          let '(calls, c) := invoke_all rest payload st' in
          ((s, payload) :: calls, c)
      | Throw e st' => ([(s, payload)], Throw e st')
      end
  end.

Definition dispatch (event : string) (payload : Payload) (st : Emitter)
    : list Call * Completion bool :=
  let listeners := collectListeners event st in
  if bool_decide (length listeners = O) then ([], Normal false st)
  else
    match invoke_all listeners payload st with
    | (calls, Normal _ st') =>
        (calls, Normal true (pruneOnce event listeners st'))
    | (calls, Throw e st') => (calls, Throw e st')
    end.

Definition emit (event : string) (payload : Payload) (st : Emitter)
    : list Call * Completion bool :=
  if paused st then
    ([], Normal false
           (if Z.of_nat (length (buffer st)) <? maxBufferSize st
            then set_buffer (buffer st ++ [(event, payload)]) st
            else st))
  else dispatch event payload st.

(** *** Pause / Resume *)

Definition pause (st : Emitter) : Emitter := set_paused true st.

(** [for (const { event, payload } of pending) this.dispatch(event, payload)]. *)
Fixpoint replay (pending : list (string * Payload)) (st : Emitter)
    : list Call * Completion unit :=
  match pending with
  | [] => ([], Normal tt st)
  | (event, payload) :: rest =>
      match dispatch event payload st with
      | (calls, Normal _ st') =>
          let '(calls', c) := replay rest st' in (calls ++ calls', c)
      | (calls, Throw e st') => (calls, Throw e st')
      end
  end.

(** [resume()]: [buffer.splice(0)] empties the buffer and yields its
    former contents. *)
Definition resume (st : Emitter) : list Call * Completion unit :=
  let st := set_paused false st in
  let pending := buffer st in
  let st := set_buffer [] st in
  replay pending st.

(** *** Sequences of public operations *)

Inductive Op :=
| OpSetMaxListeners (n : Z)
| OpSetMaxBufferSize (n : Z)
| OpOn (event : string) (listener : FnId) (options : OnOptions)
| OpOnce (event : string) (listener : FnId) (options : OnOptions)
| OpOff (sub : Subscription)
| OpEmit (event : string) (payload : Payload)
| OpPause
| OpResume
| OpClear (event : option string)
| OpDispose.

(** The state a caller is left with, whether the call returned or threw. *)
Definition run_op (op : Op) (st : Emitter) : Emitter :=
  match op with
  | OpSetMaxListeners n => setMaxListeners n st
  | OpSetMaxBufferSize n => setMaxBufferSize n st
  | OpOn event listener options => (on event listener options st).2
  | OpOnce event listener options => (once_ event listener options st).2
  | OpOff sub => off sub st
  | OpEmit event payload => state_of (emit event payload st).2
  | OpPause => pause st
  | OpResume => state_of (resume st).2
  | OpClear event => clear event st
  | OpDispose => dispose st
  end.

Definition run_ops (ops : list Op) (st : Emitter) : Emitter :=
  foldl (λ st op, run_op op st) st ops.

End Emitter.

Arguments Emitter : clear implicits.
Arguments Completion : clear implicits.
Arguments EmitterOptions : clear implicits.
Arguments Op : clear implicits.

(** ** Publishing, with the publishes of listeners traced *)

(** [dispatch] and [emit] once more, for listeners that report what the
    publishes they start themselves have called.  The code is the same;
    the trace lists every call in the order in which it is made, the
    calls of a nested publish between the call of the listener that
    starts it and the next call of the loop that called that listener. *)
Module Traced.
Section Traced.
Context {Payload Err : Type}.

(** What a callback does: the calls made, while it runs, by the
    publishes it starts, and how it ends. *)
Variable apply_fn :
  FnId → Payload → Emitter Payload
  → list (StoredListener * Payload) * Completion Payload Err unit.

(** [for (const stored of listeners) stored.fn(payload)]. *)
Fixpoint invoke_all (ls : list StoredListener) (payload : Payload)
    (st : Emitter Payload)
    : list (StoredListener * Payload) * Completion Payload Err unit :=
  match ls with
  | [] => ([], Normal tt st)
  | s :: rest =>
      match apply_fn (fn s) payload st with
      | (inner, Normal _ st') =>
          let '(calls, c) := invoke_all rest payload st' in
          ((s, payload) :: inner ++ calls, c)
      | (inner, Throw e st') => ((s, payload) :: inner, Throw e st')
      end
  end.

Definition dispatch (event : string) (payload : Payload) (st : Emitter Payload)
    : list (StoredListener * Payload) * Completion Payload Err bool :=
  let listeners := collectListeners event st in
  if bool_decide (length listeners = O) then ([], Normal false st)
  else
    match invoke_all listeners payload st with
    | (calls, Normal _ st') =>
        (calls, Normal true (pruneOnce event listeners st'))
    | (calls, Throw e st') => (calls, Throw e st')
    end.

Definition emit (event : string) (payload : Payload) (st : Emitter Payload)
    : list (StoredListener * Payload) * Completion Payload Err bool :=
  if paused st then
    ([], Normal false
           (if Z.of_nat (length (buffer st)) <? maxBufferSize st
            then set_buffer (buffer st ++ [(event, payload)]) st
            else st))
  else dispatch event payload st.

(** A listener body that is the statement [emitter.emit(event, payload)]:
    its calls are those of the publish; the value [emit] returns is
    dropped, and an error it throws is not caught. *)
Definition publishing (event : string) (payload : Payload) (st : Emitter Payload)
    : list (StoredListener * Payload) * Completion Payload Err unit :=
  match emit event payload st with
  | (calls, Normal _ st') => (calls, Normal tt st')
  | (calls, Throw e st') => (calls, Throw e st')
  end.

End Traced.
End Traced.

(** * Vocabulary of the statements *)

(** ** The matcher *)

Module MatcherSpec.
Import Matcher.

(** Ranges of the cursors that every iteration keeps. *)
Definition in_range (pp ep : list string) (c : cursors) : Prop :=
  0 ≤ pi c ≤ Z.of_nat (length pp) ∧
  0 ≤ ei c ≤ Z.of_nat (length ep) ∧
  -1 ≤ starPi c < Z.of_nat (length pp) ∧
  -1 ≤ starEi c ≤ ei c.

(** Lexicographic measure: first how far the anchor can still advance,
    then how far the pattern cursor can. *)
Definition measure (pp ep : list string) (c : cursors) : Z :=
  (Z.of_nat (length ep) - starEi c) * (Z.of_nat (length pp) + 1)
  + (Z.of_nat (length pp) - pi c).

(** Both cursors after [n] segments, no anchor set. *)
Definition at_ (n : nat) : cursors :=
  Cursors (Z.of_nat n) (Z.of_nat n) (-1) (-1).

End MatcherSpec.

(** No segment of the pattern is a wildcard token. *)
Definition wildcard_free (p : string) : Prop :=
  ("*" ∉ split p) ∧ ("**" ∉ split p).

(** A name with every ['.'] delimiter written as [':']. *)
Definition canon_char (c : ascii) : ascii :=
  if is_sep c then ":"%char else c.

Fixpoint canon (s : string) : string :=
  match s with
  | EmptyString => EmptyString
  | String c s' => String (canon_char c) (canon s')
  end.

(** [Array.prototype.join(":")]. *)
Fixpoint join (segs : list string) : string :=
  match segs with
  | [] => EmptyString
  | [seg] => seg
  | seg :: segs' => seg +:+ String ":"%char (join segs')
  end.

(** ** Arrays *)

(** Larger keys first. *)
Definition descending {A} (key : A → Z) : list A → Prop :=
  StronglySorted (λ a b, key b ≤ key a).

(** ** Registries *)

Section RegistrySpec.
Context {Payload : Type}.
Implicit Types (st : Emitter Payload) (x : StoredListener) (op : Op Payload).

(** The exact-name list of an event; a missing key reads as no entry. *)
Definition exact_of (event : string) st : list StoredListener :=
  default [] (listeners st !! event).

(** The wildcard entries whose pattern matches an event. *)
Definition wild_matching (event : string) st : list StoredListener :=
  stored <$> filter (λ w, matchWildcard (pattern w) event = true)
                    (wildcardListeners st).

(** An entry is held by one of the two registries. *)
Definition registered x st : Prop :=
  (∃ event, x ∈ exact_of event st) ∨ x ∈ stored <$> wildcardListeners st.

(** Every entry sits in one slot of one registry: what [on] establishes
    by creating a new object per subscription. *)
Record well_formed st : Prop := {
  wf_exact : ∀ event, NoDup (exact_of event st);
  wf_wild : NoDup (stored <$> wildcardListeners st);
  wf_keys : ∀ e1 e2 x, x ∈ exact_of e1 st → x ∈ exact_of e2 st → e1 = e2;
  wf_apart : ∀ event x,
    x ∈ exact_of event st → x ∉ stored <$> wildcardListeners st;
}.

(** Well formed, and every entry held was allocated before. *)
Definition consistent st : Prop :=
  well_formed st ∧ ∀ x, registered x st → (ident x < allocated st)%nat.

(** The entry [on] creates. *)
Definition new_entry (listener : FnId) (options : OnOptions) st : StoredListener :=
  mkStored (allocated st) listener
           (default false (opt_once options))
           (default 0 (opt_priority options)).

(** The once entries among those that fired. *)
Definition once_of (fired : list StoredListener) : list StoredListener :=
  filter (λ s, once s = true) fired.

(** Two states hold the same subscriptions. *)
Definition same_registry st st' : Prop :=
  listeners st = listeners st' ∧ wildcardListeners st = wildcardListeners st'.

(** From [st] to [st'] entries may have been added, all of them newly
    allocated, and entries may have gone; no entry of [st] has moved. *)
Definition evolves st st' : Prop :=
  (allocated st ≤ allocated st')%nat ∧
  (∀ e x, (ident x < allocated st)%nat →
          x ∈ exact_of e st' → x ∈ exact_of e st) ∧
  (∀ x, (ident x < allocated st)%nat →
        x ∈ stored <$> wildcardListeners st' →
        x ∈ stored <$> wildcardListeners st).

(** From [st] to [st'] entries have gone, nothing else. *)
Definition shrinks st st' : Prop :=
  allocated st' = allocated st ∧
  (∀ e, exact_of e st' `sublist_of` exact_of e st) ∧
  wildcardListeners st' `sublist_of` wildcardListeners st.

(** The state in which something started and the one it has reached. *)
Definition reached st0 st : Prop := consistent st ∧ evolves st0 st.

(** The buffer respects its bound. *)
Definition bounded st : Prop :=
  Z.of_nat (length (buffer st)) ≤ maxBufferSize st.

(** A call of [setMaxBufferSize] that does not cut into what is
    buffered already; every other operation is unconstrained. *)
Definition admissible op st : Prop :=
  match op with
  | OpSetMaxBufferSize n => Z.of_nat (length (buffer st)) ≤ n
  | _ => True
  end.

(** The calls made to one entry, as the payloads it received. *)
Definition received x (calls : list (StoredListener * Payload)) : list Payload :=
  (filter (λ c, c.1 = x) calls).*2.

End RegistrySpec.

(** ** Listeners *)

Section ListenerSpec.
Context {Payload Err : Type}.
Variable apply_fn : FnId → Payload → Emitter Payload → Completion Payload Err unit.
Implicit Types (st : Emitter Payload) (x : StoredListener) (p : Payload).

(** Listeners that return without having changed the emitter. *)
Definition inert : Prop := ∀ f p st, apply_fn f p st = Normal tt st.


(** What a listener may do to the subscriptions: what the operations of
    the emitter allow.  Called in a consistent state it leaves a
    consistent state that [evolves] from it. *)
Definition disciplined : Prop :=
  ∀ f p st, consistent st →
    consistent (state_of (apply_fn f p st)) ∧
    evolves st (state_of (apply_fn f p st)).

(** Listeners may call the emitter themselves; they are asked to keep
    the bound of the buffer as the caller is. *)
Definition bound_preserving : Prop :=
  ∀ f p st, bounded st → bounded (state_of (apply_fn f p st)).

(** A run of operations none of which lowers the bound below what is
    buffered when it is called. *)
Fixpoint admissible_run (ops : list (Op Payload)) st : Prop :=
  match ops with
  | [] => True
  | op :: ops' => admissible op st ∧ admissible_run ops' (run_op apply_fn op st)
  end.

(** The state after a run of publishes. *)
Definition publish_all (pubs : list (string * Payload)) st : Emitter Payload :=
  foldl (λ s ep, state_of (emit apply_fn ep.1 ep.2 s).2) st pubs.

End ListenerSpec.

(** ** The matcher, declaratively *)

(** What the patterns mean, segment by segment: [**] stands for any run
    of segments, the empty one included, [*] for any one segment, every
    other segment for itself. *)
Inductive segments_match : list string → list string → Prop :=
| match_end : segments_match [] []
| match_run_empty pp ep :
    segments_match pp ep → segments_match ("**" :: pp) ep
| match_run_more pp e ep :
    segments_match ("**" :: pp) ep → segments_match ("**" :: pp) (e :: ep)
| match_one pp e ep :
    segments_match pp ep → segments_match ("*" :: pp) (e :: ep)
| match_same p pp ep :
    p ≠ "**" → segments_match pp ep → segments_match (p :: pp) (p :: ep).

(** A pattern segment other than [**] against an event segment. *)
Definition one_segment (p e : string) : Prop := p = "*" ∨ p = e.

Module GlobSpec.
Import Matcher.

(** The main loop keeps the following.  The pattern is [done_p ++ mid ++
    rp] and the event [skipped ++ mid_e ++ re], the cursors standing
    before [rp] and [re]; [mid] has no [**] and matches [mid_e] segment
    by segment.  Without an anchor nothing is done or skipped; with one,
    [done_p] ends with the anchored [**] and [skipped] is what that [**]
    has absorbed so far.  The whole pattern matches the whole event
    exactly when what follows the anchor matches some remainder that has
    not been ruled out yet. *)
Definition loop_inv (P E : list string) (c : cursors) : Prop :=
  ∃ done_p mid rp skipped mid_e re (anchored : bool),
    P = done_p ++ mid ++ rp ∧ E = skipped ++ mid_e ++ re ∧
    pi c = Z.of_nat (length (done_p ++ mid)) ∧
    ei c = Z.of_nat (length (skipped ++ mid_e)) ∧
    ("**" ∉ mid) ∧ Forall2 one_segment mid mid_e ∧
    (if anchored
     then starPi c = Z.of_nat (length done_p) - 1 ∧
          starEi c = Z.of_nat (length skipped) ∧
          ∃ dp, done_p = dp ++ ["**"]
     else starPi c = -1 ∧ done_p = [] ∧ skipped = []) ∧
    (segments_match P E
     ↔ ∃ s, (if anchored then s `suffix_of` mid_e ++ re else s = mid_e ++ re)
            ∧ segments_match (mid ++ rp) s).

(** The last two branches of the loop body: back to the anchor, or
    [return false]. *)
Definition fallback (sp se : Z) : step_result :=
  if negb (sp =? -1) then Continue (Cursors (sp + 1) (se + 1) sp (se + 1))
  else ReturnFalse.

(** What one turn of the loop must establish. *)
Definition turn_ok (P E : list string) (r : step_result) : Prop :=
  match r with
  | Continue c' => loop_inv P E c'
  | ReturnFalse => ¬ segments_match P E
  | LoopExit c' =>
      (skip_stars (length P) P (pi c') =? Z.of_nat (length P)) = true
      ↔ segments_match P E
  end.

End GlobSpec.

(** ** The shape of the registries *)

Section ShapeSpec.
Context {Payload : Type}.
Implicit Types (st : Emitter Payload).

(** The shape in which the code keeps the two registries: the map holds
    no empty list and no key with a ['*'], every wildcard pattern has
    one, and every list is in descending priority. *)
Record tidy st : Prop := {
  tidy_nonempty : ∀ e l, listeners st !! e = Some l → l ≠ [];
  tidy_keys : ∀ e l, listeners st !! e = Some l → includes_star e = false;
  tidy_exact : ∀ e, descending priority (exact_of e st);
  tidy_patterns :
    Forall (λ w, includes_star (pattern w) = true) (wildcardListeners st);
  tidy_wild : descending (priority ∘ stored) (wildcardListeners st);
}.

End ShapeSpec.

Section ShapeListeners.
Context {Payload Err : Type}.
Variable apply_fn : FnId → Payload → Emitter Payload → Completion Payload Err unit.

(** Listeners that leave the registries in that shape, as they do when
    they change them through the operations of the emitter only. *)
Definition tidy_preserving : Prop :=
  ∀ f p st, tidy st → tidy (state_of (apply_fn f p st)).


End ShapeListeners.

(** Forgetting the nested calls gives the listeners of [dispatch]. *)
Definition effect_of {Payload Err}
    (apply_tr : FnId → Payload → Emitter Payload
                → list (StoredListener * Payload) * Completion Payload Err unit)
    : FnId → Payload → Emitter Payload → Completion Payload Err unit :=
  λ f p st, (apply_tr f p st).2.

(** ** Scenarios *)

(** Listeners that do nothing. *)
Definition quiet_fn : FnId → Z → Emitter Z → Completion Z string unit :=
  λ _ _ st, Normal tt st.

(** Listener 2 throws, every other listener does nothing (the scenario of
    the test "remaining listeners still fire after a listener throws"). *)
Definition middle_throws : FnId → Z → Emitter Z → Completion Z string unit :=
  λ f _ st, if bool_decide (f = 2%nat) then Throw "fail" st else Normal tt st.

(** Three subscriptions to ["ping"], in this order. *)
Definition three_on_ping (priorities : Z * Z * Z) (st : Emitter Z) : Emitter Z :=
  let '(p1, p2, p3) := priorities in
  let st := (on "ping" 1%nat (mkOptions None (Some p1)) st).2 in
  let st := (on "ping" 2%nat (mkOptions None (Some p2)) st).2 in
  (on "ping" 3%nat (mkOptions None (Some p3)) st).2.

(** Listener 0 unsubscribes the entry of listener 1 through its handle;
    listener 2 subscribes listener 1 to ["job"]. *)
Definition handle_of_second : Subscription :=
  mkSubscription false "job" (mkStored 1%nat 1%nat false 0).

Definition meddling_fn : FnId → Z → Emitter Z → Completion Z string unit :=
  λ f _ st,
    if bool_decide (f = 0%nat) then Normal tt (off handle_of_second st)
    else if bool_decide (f = 2%nat) then Normal tt (on "job" 1%nat no_options st).2
    else Normal tt st.


(** A caller that lowers the bound to 2, subscribes, pauses and publishes
    three events. *)
Definition three_while_paused : list (Op Z) :=
  [OpSetMaxBufferSize 2; OpOn "ping" 1%nat no_options; OpPause;
   OpEmit "ping" 1; OpEmit "ping" 2; OpEmit "ping" 3].

(** Listener 1 subscribes to ["tick"]; the emitter is paused and two
    events are published; then listener 1 is unsubscribed through its
    handle, listener 2 subscribes to ["tick"] and listener 3 once to
    ["*"], and a third event is published. *)
Definition first_tick_handle : Subscription :=
  mkSubscription false "tick" (mkStored 0%nat 1%nat false 0).

Definition changes_while_paused : Emitter Z :=
  run_ops quiet_fn
    [OpOn "tick" 1%nat no_options; OpPause;
     OpEmit "tick" 1; OpEmit "tock" 2;
     OpOff first_tick_handle;
     OpOn "tick" 2%nat no_options; OpOnce "*" 3%nat no_options;
     OpEmit "tick" 3]
    (new_Emitter (Err:=string) None).

(** A listener on ["user:login"] and a once-listener on ["user:*"]. *)
Definition exact_and_once_wildcard : Emitter Z :=
  let st := new_Emitter (Err:=string) None in
  let st := (on "user:login" 2%nat no_options st).2 in
  (once_ "user:*" 1%nat no_options st).2.

(** Listener 2 subscribes listener 4 to ["user:login"] when it is called. *)
Definition subscribing_fn : FnId → Z → Emitter Z → Completion Z string unit :=
  λ f _ st,
    if bool_decide (f = 2%nat)
    then Normal tt (on "user:login" 4%nat no_options st).2
    else Normal tt st.

(** Listener 0 publishes ["y"] with payload 8 when it is called; every
    other listener does nothing.  The listeners called by the publish it
    starts are the same ones; [depth] bounds how deep publishes may nest
    (at depth 0 listener 0 returns at once), so that the definition is a
    structural recursion.  The scenario below nests once, and what is
    shown of it holds for every positive depth. *)
Fixpoint reentrant_fn (depth : nat) (f : FnId) (p : Z) (st : Emitter Z)
    : list (StoredListener * Z) * Completion Z string unit :=
  if bool_decide (f = 0%nat) then
    match depth with
    | O => ([], Normal tt st)
    | S depth' => Traced.publishing (reentrant_fn depth') "y" 8 st
    end
  else ([], Normal tt st).

(** Listener 0 on ["x"] and listener 1, once, on ["*"]. *)
Definition publisher_and_once : Emitter Z :=
  let st := new_Emitter (Err:=string) None in
  let st := (on "x" 0%nat no_options st).2 in
  (once_ "*" 1%nat no_options st).2.

(** * Properties *)

(** ** Examples of splitting and matching *)

Example split_ex1 : split "user:a.b" = ["user"; "a"; "b"].
Proof. reflexivity. Qed.
Example split_ex2 : split "" = [""].
Proof. reflexivity. Qed.
Example split_ex3 : split "a::b." = ["a"; ""; "b"; ""].
Proof. reflexivity. Qed.
Example matchWildcard_ex1 : matchWildcard "user:*" "user:login" = true.
Proof. vm_compute. reflexivity. Qed.
Example matchWildcard_ex2 : matchWildcard "user:*" "user:a:b" = false.
Proof. vm_compute. reflexivity. Qed.
Example matchWildcard_ex3 : matchWildcard "user:**" "user:a:b" = true.
Proof. vm_compute. reflexivity. Qed.
Example matchWildcard_ex4 : matchWildcard "**" "anything:at:all" = true.
Proof. vm_compute. reflexivity. Qed.
Example matchWildcard_ex5 : matchWildcard "a:**:b" "a:x:y:b" = true.
Proof. vm_compute. reflexivity. Qed.
Example matchWildcard_ex6 : matchWildcard "a:**:b" "a:x:y:c" = false.
Proof. vm_compute. reflexivity. Qed.

(** ** The matcher *)

Module MatcherFacts.
Import Matcher MatcherSpec.

Lemma step_decreases pp ep c c' :
  in_range pp ep c →
  step pp ep c = Continue c' →
  in_range pp ep c' ∧ 0 ≤ measure pp ep c' < measure pp ep c.
Proof.
  unfold in_range, measure, step.
  destruct c as [p e sp se]; simpl.
  set (L := Z.of_nat (length ep)). set (P := Z.of_nat (length pp)).
  intros (Hp & He & Hsp & Hse) Hs.
  assert (HP : 0 ≤ P) by (unfold P; lia).
  assert (Hmono : ∀ a b, a ≤ b → (L - b) * (P + 1) ≤ (L - a) * (P + 1))
    by (intros; apply Z.mul_le_mono_nonneg_r; lia).
  assert (Hpos : ∀ a, a ≤ L → 0 ≤ (L - a) * (P + 1))
    by (intros; apply Z.mul_nonneg_nonneg; lia).
  assert (Hsucc : ∀ a, (L - a) * (P + 1) = (L - (a + 1)) * (P + 1) + (P + 1))
    by (intros; ring).
  destruct (Z.ltb_spec e L); simpl in Hs; [|discriminate].
  destruct (Z.ltb_spec p P); simpl in Hs.
  - destruct (seg_is pp p "**"); simpl in Hs.
    + inversion Hs; subst; simpl.
      pose proof (Hmono se e). pose proof (Hpos e). lia.
    + destruct (seg_is pp p "*" || seg_eq pp ep p e); simpl in Hs.
      * inversion Hs; subst; simpl. pose proof (Hpos se). lia.
      * destruct (Z.eqb_spec sp (-1)); simpl in Hs; [discriminate|].
        inversion Hs; subst; simpl.
        pose proof (Hpos (se + 1)). pose proof (Hsucc se). lia.
  - destruct (Z.eqb_spec sp (-1)); simpl in Hs; [discriminate|].
    inversion Hs; subst; simpl.
    pose proof (Hpos (se + 1)). pose proof (Hsucc se). lia.
Qed.

Lemma main_loop_fuel pp ep fuel : ∀ c,
  in_range pp ep c →
  measure pp ep c < Z.of_nat fuel →
  0 ≤ measure pp ep c →
  main_loop fuel pp ep c ≠ None.
Proof.
  induction fuel as [|fuel IH]; intros c Hc Hm H0; [lia|].
  simpl. destruct (step pp ep c) as [c'| |c'] eqn:Hs; try done.
  destruct (step_decreases _ _ _ _ Hc Hs) as [Hc' Hm'].
  apply IH; [done|lia|lia].
Qed.

Lemma main_loop_total pp ep :
  main_loop (enough_fuel pp ep) pp ep start ≠ None.
Proof.
  apply main_loop_fuel.
  - unfold in_range, start; simpl. lia.
  - unfold measure, enough_fuel, start; simpl. nia.
  - unfold measure, start; simpl. nia.
Qed.

Lemma match_parts_total pp ep : is_Some (match_parts pp ep).
Proof.
  unfold match_parts, finish.
  pose proof (main_loop_total pp ep) as H.
  destruct (main_loop _ pp ep start) as [[c|]|]; [eauto..|done].
Qed.

(** More fuel does not change a result. *)
Lemma main_loop_more_fuel pp ep fuel : ∀ c r extra,
  main_loop fuel pp ep c = Some r →
  main_loop (fuel + extra) pp ep c = Some r.
Proof.
  induction fuel as [|fuel IH]; intros c r extra H; [done|].
  simpl in *. destruct (step pp ep c); eauto.
Qed.

End MatcherFacts.

(** [matchWildcard] is the result of the loops, never the default. *)
Lemma matchWildcard_total pattern event :
  Matcher.match_parts (split pattern) (split event)
  = Some (matchWildcard pattern event).
Proof.
  unfold matchWildcard.
  destruct (MatcherFacts.match_parts_total (split pattern) (split event)) as [b ->].
  done.
Qed.

Lemma split_nonempty s : split s ≠ [].
Proof.
  destruct s as [|c s]; simpl; [done|].
  destruct (is_sep c); [done|]. by destruct (split s).
Qed.

Lemma join_split s : join (split s) = canon s.
Proof.
  induction s as [|c s IH]; [done|].
  simpl. unfold canon_char.
  pose proof (split_nonempty s) as Hne.
  destruct (is_sep c) eqn:Hc.
  - destruct (split s) as [|seg segs] eqn:Hs; [done|].
    change (join ("" :: seg :: segs)) with (String ":"%char (join (seg :: segs))).
    by rewrite IH.
  - destruct (split s) as [|seg segs] eqn:Hs; [done|].
    rewrite <- IH. by destruct segs.
Qed.

Lemma is_sep_canon_char c : is_sep (canon_char c) = is_sep c.
Proof. unfold canon_char. by destruct (is_sep c) eqn:E. Qed.

Lemma split_canon s : split (canon s) = split s.
Proof.
  induction s as [|c s IH]; [done|].
  simpl. rewrite is_sep_canon_char, IH.
  unfold canon_char. by destruct (is_sep c).
Qed.

(** Two names have the same segments exactly when they agree up to the
    choice of delimiter. *)
Lemma split_eq_canon p e : split p = split e ↔ canon p = canon e.
Proof.
  split; intros H.
  - by rewrite <- !join_split, H.
  - by rewrite <- (split_canon p), <- (split_canon e), H.
Qed.

Module LiteralFacts.
Import Matcher MatcherSpec.

Lemma lookup_at_length (pre : list string) x l :
  (pre ++ x :: l) !! Z.to_nat (Z.of_nat (length pre)) = Some x.
Proof. rewrite Nat2Z.id. apply list_lookup_middle. done. Qed.

Lemma lookup_past_end (pre : list string) :
  pre !! Z.to_nat (Z.of_nat (length pre)) = None.
Proof. rewrite Nat2Z.id. apply lookup_ge_None. lia. Qed.

Lemma skip_stars_at_end n pp :
  skip_stars n pp (Z.of_nat (length pp)) = Z.of_nat (length pp).
Proof. destruct n; simpl; [done|]. by rewrite Z.ltb_irrefl. Qed.

(** With literal pattern segments the loop walks both sequences in step
    and answers whether they are equal. *)
Lemma literal_loop ep : ∀ pp pre fuel,
  "*" ∉ pp → "**" ∉ pp →
  (length ep < fuel)%nat →
  finish (pre ++ pp) (main_loop fuel (pre ++ pp) (pre ++ ep) (at_ (length pre)))
  = Some (bool_decide (pp = ep)).
Proof.
  induction ep as [|y ep IH]; intros pp pre fuel H1 H2 Hf;
    (destruct fuel as [|fuel]; [simpl in Hf; lia|]).
  - simpl. unfold step; simpl.
    rewrite app_nil_r, Z.ltb_irrefl; simpl.
    destruct pp as [|x pp].
    + rewrite app_nil_r, skip_stars_at_end, Z.eqb_refl. done.
    + rewrite length_app; simpl.
      replace (length pre + S (length pp))%nat
        with (S (length pre + length pp)) by lia.
      simpl. unfold seg_is. rewrite lookup_at_length.
      rewrite bool_decide_eq_false_2 by (intros [= ->]; set_solver).
      rewrite andb_false_r.
      f_equal. apply Z.eqb_neq. lia.
  - simpl. unfold step; simpl.
    rewrite (proj2 (Z.ltb_lt _ _)) by (rewrite length_app; simpl; lia).
    simpl.
    destruct pp as [|x pp].
    + rewrite app_nil_r, Z.ltb_irrefl. done.
    + rewrite (proj2 (Z.ltb_lt _ _)) by (rewrite length_app; simpl; lia).
      simpl. unfold seg_is, seg_eq. rewrite !lookup_at_length.
      rewrite bool_decide_eq_false_2 by (intros [= ->]; set_solver).
      rewrite bool_decide_eq_false_2 by (intros [= ->]; set_solver).
      simpl. destruct (decide (x = y)) as [->|Hxy].
      * rewrite bool_decide_eq_true_2 by done.
        replace (pre ++ y :: pp) with ((pre ++ [y]) ++ pp)
          by (by rewrite <- app_assoc).
        replace (pre ++ y :: ep) with ((pre ++ [y]) ++ ep)
          by (by rewrite <- app_assoc).
        replace (Cursors (Z.of_nat (length pre) + 1)
                   (Z.of_nat (length pre) + 1) (-1) (-1))
          with (at_ (length (pre ++ [y])))
          by (unfold at_; rewrite length_app; simpl; f_equal; lia).
        rewrite IH; [|set_solver|set_solver|simpl in Hf; lia].
        f_equal. apply bool_decide_ext. split; [by intros ->|by intros [= ->]].
      * rewrite bool_decide_eq_false_2 by (by intros [= ->]).
        simpl. by rewrite bool_decide_eq_false_2 by (by intros [= -> _]).
Qed.

Lemma match_parts_literal pp ep :
  "*" ∉ pp → "**" ∉ pp →
  match_parts pp ep = Some (bool_decide (pp = ep)).
Proof.
  intros H1 H2. unfold match_parts.
  apply (literal_loop ep pp [] (enough_fuel pp ep) H1 H2).
  unfold enough_fuel. lia.
Qed.

(** A literal prefix shared by pattern and event is consumed in step,
    whatever the anchor is. *)
Lemma literal_prefix lit : ∀ pre restp reste fuel sp se,
  "**" ∉ lit →
  main_loop (length lit + fuel) (pre ++ lit ++ restp) (pre ++ lit ++ reste)
    (Cursors (Z.of_nat (length pre)) (Z.of_nat (length pre)) sp se)
  = main_loop fuel (pre ++ lit ++ restp) (pre ++ lit ++ reste)
      (Cursors (Z.of_nat (length pre + length lit))
               (Z.of_nat (length pre + length lit)) sp se).
Proof.
  induction lit as [|x lit IH]; intros pre restp reste fuel sp se Hlit.
  - simpl. by rewrite Nat.add_0_r.
  - simpl. unfold step; simpl.
    rewrite (proj2 (Z.ltb_lt _ _)) by (rewrite length_app; simpl; lia).
    rewrite (proj2 (Z.ltb_lt _ _)) by (rewrite length_app; simpl; lia).
    simpl. unfold seg_is, seg_eq. rewrite !lookup_at_length.
    rewrite bool_decide_eq_false_2 by (intros [= ->]; set_solver).
    rewrite (bool_decide_eq_true_2 (Some x = Some x)) by done.
    rewrite orb_true_r.
    replace (pre ++ x :: lit ++ restp) with ((pre ++ [x]) ++ lit ++ restp)
      by (by rewrite <- app_assoc).
    replace (pre ++ x :: lit ++ reste) with ((pre ++ [x]) ++ lit ++ reste)
      by (by rewrite <- app_assoc).
    replace (Z.of_nat (length pre) + 1) with (Z.of_nat (length (pre ++ [x])))
      by (rewrite length_app; simpl; lia).
    rewrite IH by set_solver.
    rewrite length_app; simpl.
    by replace (length pre + 1 + length lit)%nat
      with (length pre + S (length lit))%nat by lia.
Qed.

(** A trailing [**] after a literal pattern is skipped by the second
    loop when the event has no segment left for it. *)
Lemma match_parts_trailing_star lit :
  "**" ∉ lit → match_parts (lit ++ ["**"]) lit = Some true.
Proof.
  intros Hlit. unfold match_parts.
  assert (Hrun : main_loop (length lit + 1) (lit ++ ["**"]) lit start
                 = Some (Some (Cursors (Z.of_nat (length lit))
                                       (Z.of_nat (length lit)) (-1) (-1)))).
  { pose proof (literal_prefix lit [] ["**"] [] 1 (-1) (-1) Hlit) as H.
    simpl in H. rewrite app_nil_r in H.
    unfold start. change 0 with (Z.of_nat 0). rewrite H.
    simpl. unfold step; simpl. by rewrite Z.ltb_irrefl. }
  assert (Hfuel : ∃ extra, enough_fuel (lit ++ ["**"]) lit
                           = (length lit + 1 + extra)%nat).
  { unfold enough_fuel. rewrite length_app; simpl.
    exists ((length lit + 1) * (length lit + 1 + 1) + 1)%nat. lia. }
  destruct Hfuel as [extra ->].
  rewrite (MatcherFacts.main_loop_more_fuel _ _ _ _ _ extra Hrun).
  simpl. rewrite length_app; simpl.
  replace (length lit + 1)%nat with (S (length lit)) by lia.
  simpl.
  rewrite (proj2 (Z.ltb_lt _ _)) by (rewrite length_app; simpl; lia).
  unfold seg_is.
  rewrite lookup_at_length. rewrite bool_decide_eq_true_2 by done. simpl.
  replace (Z.of_nat (length lit) + 1) with (Z.of_nat (length (lit ++ ["**"])))
    by (rewrite length_app; simpl; lia).
  rewrite skip_stars_at_end. rewrite length_app; simpl.
  f_equal. apply Z.eqb_eq. lia.
Qed.

End LiteralFacts.

Lemma split_snoc_double_star s :
  split (s +:+ ":**") = split s ++ ["**"].
Proof.
  induction s as [|c s IH]; [done|].
  change (String c s +:+ ":**") with (String c (s +:+ ":**")).
  simpl. rewrite IH. destruct (is_sep c); [done|].
  pose proof (split_nonempty s). by destruct (split s).
Qed.

(** For every name [s] without a [**] segment, the pattern [s:**] matches
    [s] itself: the [**] absorbs no segment. *)
Lemma matchWildcard_trailing_star_zero s :
  "**" ∉ split s → matchWildcard (s +:+ ":**") s = true.
Proof.
  intros H. unfold matchWildcard.
  rewrite split_snoc_double_star.
  by rewrite LiteralFacts.match_parts_trailing_star.
Qed.

(** The matcher on a pattern without wildcard tokens compares segments. *)
Lemma matchWildcard_literal p e :
  wildcard_free p → matchWildcard p e = bool_decide (split p = split e).
Proof.
  intros [H1 H2]. unfold matchWildcard.
  by rewrite LiteralFacts.match_parts_literal.
Qed.

(** ** Arrays: sorting and removal *)

Section SortFacts.
Context {A : Type} (key : A → Z) (cmp : A → A → Z).
Hypothesis cmp_key : ∀ a b, cmp a b = key b - key a.

Lemma sort_insert_perm x l : sort_insert cmp x l ≡ₚ x :: l.
Proof.
  induction l as [|y l IH]; simpl; [done|].
  destruct (cmp x y <=? 0); [done|].
  rewrite IH. apply Permutation_swap.
Qed.

Lemma js_sort_cons x l : js_sort cmp (x :: l) = sort_insert cmp x (js_sort cmp l).
Proof. done. Qed.

Lemma js_sort_perm l : js_sort cmp l ≡ₚ l.
Proof.
  induction l as [|x l IH]; [done|].
  rewrite js_sort_cons, sort_insert_perm. by f_equiv.
Qed.

Lemma sort_insert_descending x l :
  descending key l → descending key (sort_insert cmp x l).
Proof.
  unfold descending.
  induction l as [|y l IH]; intros Hs; simpl.
  - repeat constructor.
  - apply StronglySorted_inv in Hs as [Hl Hy].
    rewrite cmp_key.
    destruct (Z.leb_spec (key y - key x) 0).
    + constructor; [by constructor|].
      constructor; [lia|].
      eapply Forall_impl; [exact Hy|]. simpl. intros. lia.
    + constructor; [by apply IH|].
      rewrite sort_insert_perm. constructor; [lia|done].
Qed.

Lemma js_sort_descending l : descending key (js_sort cmp l).
Proof.
  induction l as [|x l IH]; [constructor|].
  rewrite js_sort_cons. by apply sort_insert_descending.
Qed.

(** Stability: the elements of any one key keep their relative order. *)
Lemma sort_insert_stable k x l :
  filter (λ a, key a = k) (sort_insert cmp x l)
  = filter (λ a, key a = k) (x :: l).
Proof.
  induction l as [|y l IH]; simpl; [done|].
  rewrite cmp_key.
  destruct (Z.leb_spec (key y - key x) 0); [done|].
  rewrite (filter_cons _ y), IH, !filter_cons.
  repeat case_decide; try done; lia.
Qed.

Lemma js_sort_stable k l :
  filter (λ a, key a = k) (js_sort cmp l) = filter (λ a, key a = k) l.
Proof.
  induction l as [|x l IH]; [done|].
  rewrite js_sort_cons, sort_insert_stable, !filter_cons, IH. done.
Qed.

Lemma elem_of_js_sort x l : x ∈ js_sort cmp l ↔ x ∈ l.
Proof. by rewrite js_sort_perm. Qed.

Lemma length_js_sort l : length (js_sort cmp l) = length l.
Proof. by rewrite js_sort_perm. Qed.

Lemma NoDup_js_sort l : NoDup (js_sort cmp l) ↔ NoDup l.
Proof. by rewrite js_sort_perm. Qed.

End SortFacts.

Section SpliceFacts.
Context {A : Type}.
Implicit Types (P : A → bool) (l : list A).

Lemma splice_found_cons P y l :
  splice_found P (y :: l) = if P y then l else y :: splice_found P l.
Proof.
  unfold splice_found. simpl.
  destruct (P y); [done|]. by destruct (findIndex P l).
Qed.

Lemma splice_found_nil P : splice_found P [] = [].
Proof. done. Qed.

Lemma splice_found_sublist P l : splice_found P l `sublist_of` l.
Proof.
  induction l as [|y l IH]; [done|].
  rewrite splice_found_cons. destruct (P y).
  - by apply sublist_cons.
  - by apply sublist_skip.
Qed.

(** Only an element that passes the test can disappear. *)
Lemma splice_found_keeps P l y :
  P y = false → y ∈ l → y ∈ splice_found P l.
Proof.
  intros Hy. induction l as [|z l IH]; [done|].
  rewrite splice_found_cons. intros [->|Hin]%elem_of_cons.
  - rewrite Hy. by left.
  - destruct (P z); [done|]. right. by apply IH.
Qed.

(** Folding removals over a list of targets. *)
Lemma foldl_splice_sublist {B} (test : B → A → bool) targets : ∀ l,
  foldl (λ l s, splice_found (test s) l) l targets `sublist_of` l.
Proof.
  induction targets as [|s targets IH]; intros l; simpl; [done|].
  etrans; [apply IH|]. apply splice_found_sublist.
Qed.

Lemma foldl_splice_keeps {B} (test : B → A → bool) targets y : ∀ l,
  (∀ s, s ∈ targets → test s y = false) →
  y ∈ l → y ∈ foldl (λ l s, splice_found (test s) l) l targets.
Proof.
  induction targets as [|s targets IH]; intros l Ht Hy; simpl; [done|].
  apply IH; [set_solver|].
  apply splice_found_keeps; [|done]. apply Ht. by left.
Qed.

End SpliceFacts.

(** Removing by a tag that occurs once removes every entry with it. *)
Lemma splice_found_removes {A B} `{EqDecision B} (f : A → B) (b : B) (l : list A) :
  NoDup (f <$> l) →
  b ∉ f <$> splice_found (λ y, bool_decide (f y = b)) l.
Proof.
  induction l as [|y l IH]; intros Hnd; [set_solver|].
  rewrite fmap_cons in Hnd. apply NoDup_cons in Hnd as [Hy Hnd].
  rewrite splice_found_cons. case_bool_decide as Hb.
  - by subst b.
  - rewrite fmap_cons. apply not_elem_of_cons. split; [done|by apply IH].
Qed.

Lemma foldl_splice_removes {A B} `{EqDecision B} (f : A → B) (b : B) targets :
  ∀ l, NoDup (f <$> l) → b ∈ targets →
  b ∉ f <$> foldl (λ l s, splice_found (λ y, bool_decide (f y = s)) l) l targets.
Proof.
  induction targets as [|s targets IH]; intros l Hnd Hb; [set_solver|].
  simpl.
  assert (Hsub : ∀ l', l' `sublist_of` l → NoDup (f <$> l')).
  { intros l' Hl'. apply (sublist_NoDup (f <$> l') (f <$> l)); [done|by apply fmap_sublist]. }
  destruct (decide (b = s)) as [->|Hne].
  - intros Hin.
    eapply (splice_found_removes f s l Hnd).
    eapply sublist_subseteq; [|exact Hin].
    apply fmap_sublist.
    apply (foldl_splice_sublist (λ s y, bool_decide (f y = s))).
  - apply IH; [|by apply elem_of_cons in Hb as [?|?]].
    apply Hsub, splice_found_sublist.
Qed.

(** ** The registries *)

Section Registry.
Context {Payload : Type}.
Implicit Types (st : Emitter Payload) (x : StoredListener).

Lemma collectListeners_eq event st :
  collectListeners event st
  = js_sort by_priority (exact_of event st ++ wild_matching event st).
Proof. done. Qed.

Lemma by_priority_key a b : by_priority a b = priority b - priority a.
Proof. done. Qed.

Lemma elem_of_collectListeners x event st :
  x ∈ collectListeners event st
  ↔ x ∈ exact_of event st ∨ x ∈ wild_matching event st.
Proof.
  rewrite collectListeners_eq.
  rewrite elem_of_js_sort.
  apply elem_of_app.
Qed.

Lemma wild_matching_sublist event st :
  wild_matching event st `sublist_of` stored <$> wildcardListeners st.
Proof. apply fmap_sublist, sublist_filter. Qed.

Lemma collected_registered x event st :
  x ∈ collectListeners event st → registered x st.
Proof.
  rewrite elem_of_collectListeners. intros [H|H].
  - left. eauto.
  - right. eapply sublist_subseteq; [apply wild_matching_sublist|done].
Qed.

Lemma NoDup_collectListeners event st :
  well_formed st → NoDup (collectListeners event st).
Proof.
  intros Hwf. rewrite collectListeners_eq.
  rewrite NoDup_js_sort.
  apply NoDup_app. split; [apply (wf_exact _ Hwf)|]. split.
  - intros x Hx Hw. eapply (wf_apart _ Hwf); [exact Hx|].
    eapply sublist_subseteq; [apply wild_matching_sublist|done].
  - eapply sublist_NoDup; [apply (wf_wild _ Hwf)|apply wild_matching_sublist].
Qed.

Lemma exact_of_pruneOnce event fired st e :
  exact_of e (pruneOnce event fired st)
  = if decide (e = event)
    then foldl (λ l s, splice_found (λ y, bool_decide (y = s)) l)
               (exact_of event st) (once_of fired)
    else exact_of e st.
Proof.
  unfold pruneOnce, exact_of. fold (once_of fired).
  case_bool_decide as Hlen.
  - apply nil_length_inv in Hlen. rewrite Hlen. simpl.
    by destruct (decide (e = event)) as [->|].
  - destruct (listeners st !! event) as [list|] eqn:Hl; simpl.
    + case_bool_decide as Hempty; simpl.
      * apply nil_length_inv in Hempty. rewrite Hempty.
        destruct (decide (e = event)) as [->|Hne].
        -- by rewrite lookup_delete_eq.
        -- by rewrite lookup_delete_ne.
      * destruct (decide (e = event)) as [->|Hne].
        -- by rewrite lookup_insert_eq.
        -- by rewrite lookup_insert_ne.
    + destruct (decide (e = event)) as [->|Hne]; [|done].
      rewrite Hl. simpl.
      clear Hlen. induction (once_of fired) as [|s l IH]; [done|]. exact IH.
Qed.

Lemma wildcardListeners_pruneOnce event fired st :
  wildcardListeners (pruneOnce event fired st)
  = foldl (λ ws s, splice_found (λ w, bool_decide (stored w = s)) ws)
          (wildcardListeners st) (once_of fired).
Proof.
  unfold pruneOnce. fold (once_of fired).
  case_bool_decide as Hlen.
  - apply nil_length_inv in Hlen. by rewrite Hlen.
  - simpl. destruct (listeners st !! event); [case_bool_decide|]; done.
Qed.

Lemma pruneOnce_other_fields event fired st :
  let st' := pruneOnce event fired st in
  buffer st' = buffer st ∧ maxBufferSize st' = maxBufferSize st ∧
  paused st' = paused st ∧ maxListeners st' = maxListeners st ∧
  console st' = console st ∧ allocated st' = allocated st.
Proof.
  unfold pruneOnce. simpl.
  case_bool_decide; [done|].
  destruct (listeners st !! event); [case_bool_decide|]; done.
Qed.

Lemma exact_of_pruneOnce_sublist event fired st e :
  exact_of e (pruneOnce event fired st) `sublist_of` exact_of e st.
Proof.
  rewrite exact_of_pruneOnce. destruct (decide (e = event)) as [->|]; [|done].
  apply (foldl_splice_sublist (λ s y, bool_decide (y = s))).
Qed.

Lemma wild_pruneOnce_sublist event fired st :
  wildcardListeners (pruneOnce event fired st)
    `sublist_of` wildcardListeners st.
Proof.
  rewrite wildcardListeners_pruneOnce.
  apply (foldl_splice_sublist (λ s w, bool_decide (stored w = s))).
Qed.

(** Pruning removes entries, so it keeps the registries well formed. *)
Lemma pruneOnce_well_formed event fired st :
  well_formed st → well_formed (pruneOnce event fired st).
Proof.
  intros Hwf.
  assert (Hex : ∀ e x, x ∈ exact_of e (pruneOnce event fired st)
                       → x ∈ exact_of e st).
  { intros e x. apply sublist_subseteq, exact_of_pruneOnce_sublist. }
  assert (Hw : ∀ x, x ∈ stored <$> wildcardListeners (pruneOnce event fired st)
                    → x ∈ stored <$> wildcardListeners st).
  { intros x. apply sublist_subseteq, fmap_sublist, wild_pruneOnce_sublist. }
  split.
  - intros e. eapply sublist_NoDup; [apply (wf_exact _ Hwf)|].
    apply exact_of_pruneOnce_sublist.
  - eapply sublist_NoDup; [apply (wf_wild _ Hwf)|].
    apply fmap_sublist, wild_pruneOnce_sublist.
  - intros e1 e2 x H1 H2. eapply (wf_keys _ Hwf); eauto.
  - intros e x H1 H2. eapply (wf_apart _ Hwf); eauto.
Qed.

(** An entry that is not among the once entries that fired survives the
    pruning; so does, in particular, every entry without the once flag. *)
Lemma pruneOnce_spares_exact event fired st e x :
  x ∉ once_of fired →
  x ∈ exact_of e (pruneOnce event fired st) ↔ x ∈ exact_of e st.
Proof.
  intros Hx. split.
  - apply sublist_subseteq, exact_of_pruneOnce_sublist.
  - rewrite exact_of_pruneOnce. destruct (decide (e = event)) as [->|]; [|done].
    apply (foldl_splice_keeps (λ s y, bool_decide (y = s))).
    intros s Hs. apply bool_decide_eq_false_2. by intros ->.
Qed.

Lemma pruneOnce_spares_wild event fired st w :
  stored w ∉ once_of fired →
  w ∈ wildcardListeners (pruneOnce event fired st) ↔ w ∈ wildcardListeners st.
Proof.
  intros Hx. split.
  - apply sublist_subseteq, wild_pruneOnce_sublist.
  - rewrite wildcardListeners_pruneOnce.
    apply (foldl_splice_keeps (λ s w, bool_decide (stored w = s))).
    intros s Hs. apply bool_decide_eq_false_2. intros Heq.
    by rewrite Heq in Hx.
Qed.

Lemma elem_of_wild_matching x event st :
  x ∈ wild_matching event st
  ↔ ∃ w, w ∈ wildcardListeners st ∧ stored w = x
         ∧ matchWildcard (pattern w) event = true.
Proof.
  unfold wild_matching. rewrite list_elem_of_fmap.
  split.
  - intros (w & -> & [Hm Hw]%list_elem_of_filter). eauto.
  - intros (w & Hw & <- & Hm). exists w. split; [done|].
    by apply list_elem_of_filter.
Qed.

Lemma pruneOnce_spares_collected event fired st e x :
  x ∉ once_of fired →
  x ∈ collectListeners e (pruneOnce event fired st)
  ↔ x ∈ collectListeners e st.
Proof.
  intros Hx. rewrite !elem_of_collectListeners, !elem_of_wild_matching.
  rewrite pruneOnce_spares_exact by done.
  split; (intros [?|(w & Hw & <- & Hm)]; [by left|right]);
    exists w; (split; [|done]).
  - by apply pruneOnce_spares_wild in Hw.
  - by apply pruneOnce_spares_wild.
Qed.

Lemma not_once_of x fired : once x = false → x ∉ once_of fired.
Proof. intros Hx [Ho _]%list_elem_of_filter. congruence. Qed.

Lemma pruneOnce_registered event fired st x :
  registered x (pruneOnce event fired st) → registered x st.
Proof.
  intros [[e He]|Hw].
  - left. exists e. revert He.
    apply sublist_subseteq, exact_of_pruneOnce_sublist.
  - right. revert Hw.
    apply sublist_subseteq, fmap_sublist, wild_pruneOnce_sublist.
Qed.


(** A once entry among those fired is gone after the pruning, provided
    the only exact-name list that can hold it is the one of the event. *)
Lemma pruneOnce_removes_fired event fired st x :
  well_formed st → x ∈ once_of fired →
  (∀ e, x ∈ exact_of e st → e = event) →
  ¬ registered x (pruneOnce event fired st).
Proof.
  intros Hwf Honce Hkey.
  assert (Hexact : x ∉ exact_of event (pruneOnce event fired st)).
  { rewrite exact_of_pruneOnce, decide_True by done.
    pose proof (foldl_splice_removes (A:=StoredListener) id x
                  (once_of fired) (exact_of event st)) as H.
    rewrite !list_fmap_id in H.
    apply H; [apply (wf_exact _ Hwf)|done]. }
  assert (Hwild : x ∉ stored <$> wildcardListeners (pruneOnce event fired st)).
  { rewrite wildcardListeners_pruneOnce.
    apply (foldl_splice_removes stored); [apply (wf_wild _ Hwf)|done]. }
  intros [[e He]|Hw]; [|done].
  destruct (decide (e = event)) as [->|Hne]; [done|].
  apply (sublist_subseteq _ _ (exact_of_pruneOnce_sublist _ _ _ _)) in He.
  by apply Hne, Hkey.
Qed.

(** A collected entry sits in no exact-name list but that of the event. *)
Lemma collected_key x event st e :
  well_formed st → x ∈ collectListeners event st →
  x ∈ exact_of e st → e = event.
Proof.
  intros Hwf Hin He.
  apply elem_of_collectListeners in Hin as [Hin|Hin].
  - by apply (wf_keys _ Hwf e event x).
  - exfalso. eapply (wf_apart _ Hwf); [exact He|].
    eapply sublist_subseteq; [apply wild_matching_sublist|done].
Qed.

Lemma pruneOnce_removes event st x :
  well_formed st → once x = true → x ∈ collectListeners event st →
  ¬ registered x (pruneOnce event (collectListeners event st) st).
Proof.
  intros Hwf Hx Hin. apply pruneOnce_removes_fired; [done| |].
  - by apply list_elem_of_filter.
  - intros e. by apply collected_key.
Qed.

End Registry.

Section SameRegistry.
Context {Payload : Type}.
Implicit Types (st : Emitter Payload) (x : StoredListener).

Lemma same_registry_exact_of st st' event :
  same_registry st st' → exact_of event st = exact_of event st'.
Proof. intros [H _]. unfold exact_of. by rewrite H. Qed.


Lemma same_registry_registered st st' x :
  same_registry st st' → registered x st' → registered x st.
Proof.
  intros Hs [[e He]|Hw].
  - left. exists e. by rewrite (same_registry_exact_of _ _ _ Hs).
  - right. destruct Hs as [_ H2]. by rewrite H2.
Qed.

Lemma same_registry_well_formed st st' :
  same_registry st st' → well_formed st' → well_formed st.
Proof.
  intros Hs Hwf.
  assert (He : ∀ e, exact_of e st = exact_of e st')
    by (intros; by apply same_registry_exact_of).
  destruct Hs as [_ Hw].
  split.
  - intros e. rewrite He. apply (wf_exact _ Hwf).
  - rewrite Hw. apply (wf_wild _ Hwf).
  - intros e1 e2 x. rewrite !He. apply (wf_keys _ Hwf).
  - intros e x. rewrite He, Hw. apply (wf_apart _ Hwf).
Qed.

Lemma same_registry_sym st st' : same_registry st st' → same_registry st' st.
Proof. intros [??]. by split. Qed.

End SameRegistry.

Section Consistent.
Context {Payload : Type}.
Implicit Types (st : Emitter Payload) (x : StoredListener).

Lemma consistent_empty st :
  listeners st = ∅ → wildcardListeners st = [] → consistent st.
Proof.
  intros Hl Hw.
  assert (He : ∀ e, exact_of e st = []).
  { intros e. unfold exact_of. by rewrite Hl, lookup_empty. }
  split; [split|].
  - intros e. rewrite He. constructor.
  - rewrite Hw. constructor.
  - intros e1 e2 x. rewrite He. by intros ?%elem_of_nil.
  - intros e x. rewrite He. by intros ?%elem_of_nil.
  - intros x [[e H]|H].
    + rewrite He in H. by apply elem_of_nil in H.
    + rewrite Hw in H. by apply elem_of_nil in H.
Qed.

Lemma on_handle event listener options st :
  (on event listener options st).1
  = mkSubscription (includes_star event) event (new_entry listener options st).
Proof. done. Qed.

Lemma on_allocated event listener options st :
  allocated (on event listener options st).2 = S (allocated st).
Proof.
  unfold on. simpl. destruct (includes_star event); [done|].
  by destruct (_ && _).
Qed.

Lemma on_wildcardListeners event listener options st :
  wildcardListeners (on event listener options st).2
  = if includes_star event
    then js_sort by_stored_priority
           (wildcardListeners st ++ [mkWild event (new_entry listener options st)])
    else wildcardListeners st.
Proof.
  unfold on. simpl. destruct (includes_star event); [done|].
  by destruct (_ && _).
Qed.

Lemma on_exact_of event listener options st e :
  exact_of e (on event listener options st).2
  = if includes_star event then exact_of e st
    else if decide (e = event)
         then js_sort by_priority
                (exact_of event st ++ [new_entry listener options st])
         else exact_of e st.
Proof.
  unfold on, exact_of. simpl. destruct (includes_star event); [done|].
  assert (H : ∀ (c : bool) m w,
             listeners (if c
                        then set_console w
                               (set_listeners m (set_allocated (S (allocated st)) st))
                        else set_listeners m (set_allocated (S (allocated st)) st))
             = m) by (by intros []).
  rewrite H. destruct (decide (e = event)) as [->|Hne].
  - by rewrite lookup_insert_eq.
  - by rewrite lookup_insert_ne.
Qed.

Lemma on_consistent event listener options st :
  consistent st → consistent (on event listener options st).2.
Proof.
  intros [Hwf Hfresh].
  set (new := new_entry listener options st).
  assert (Hnew : ¬ registered new st).
  { intros H. apply Hfresh in H. simpl in H. lia. }
  assert (Hnew_exact : ∀ e, new ∉ exact_of e st).
  { intros e H. apply Hnew. left. eauto. }
  assert (Hnew_wild : new ∉ stored <$> wildcardListeners st).
  { intros H. apply Hnew. by right. }
  assert (Hwild : stored <$> wildcardListeners (on event listener options st).2
                  ≡ₚ if includes_star event
                     then (stored <$> wildcardListeners st) ++ [new]
                     else stored <$> wildcardListeners st).
  { rewrite on_wildcardListeners. destruct (includes_star event); [|done].
    by rewrite js_sort_perm, fmap_app. }
  assert (Hexact : ∀ e, exact_of e (on event listener options st).2
                        ≡ₚ if includes_star event then exact_of e st
                           else if decide (e = event)
                                then exact_of event st ++ [new]
                                else exact_of e st).
  { intros e. rewrite on_exact_of. destruct (includes_star event); [done|].
    destruct (decide (e = event)); [|done]. by rewrite js_sort_perm. }
  split; [split|].
  - intros e. rewrite Hexact. destruct (includes_star event).
    + apply (wf_exact _ Hwf).
    + destruct (decide (e = event)) as [->|]; [|apply (wf_exact _ Hwf)].
      apply NoDup_app. split; [apply (wf_exact _ Hwf)|].
      split; [|apply NoDup_singleton].
      intros x Hx ->%list_elem_of_singleton. by apply (Hnew_exact event).
  - rewrite Hwild. destruct (includes_star event); [|apply (wf_wild _ Hwf)].
    apply NoDup_app. split; [apply (wf_wild _ Hwf)|].
    split; [|apply NoDup_singleton].
    intros x Hx ->%list_elem_of_singleton. done.
  - intros e1 e2 x. rewrite !Hexact. destruct (includes_star event).
    + apply (wf_keys _ Hwf).
    + destruct (decide (e1 = event)) as [->|H1], (decide (e2 = event)) as [->|H2];
        try done.
      * intros [Hx| ->%list_elem_of_singleton]%elem_of_app Hx2.
        -- by apply (wf_keys _ Hwf event e2 x).
        -- by apply Hnew_exact in Hx2.
      * intros Hx1 [Hx| ->%list_elem_of_singleton]%elem_of_app.
        -- by apply (wf_keys _ Hwf e1 event x).
        -- by apply Hnew_exact in Hx1.
      * apply (wf_keys _ Hwf).
  - intros e x. rewrite Hexact, Hwild. destruct (includes_star event).
    + intros Hx [Hw| ->%list_elem_of_singleton]%elem_of_app.
      * by apply (wf_apart _ Hwf e x).
      * by apply Hnew_exact in Hx.
    + destruct (decide (e = event)) as [->|]; [|apply (wf_apart _ Hwf)].
      intros [Hx| ->%list_elem_of_singleton]%elem_of_app; [|done].
      by apply (wf_apart _ Hwf event x).
  - intros x Hx. rewrite on_allocated.
    assert (registered x st ∨ x = new) as [H| ->]; [|by apply Nat.lt_lt_succ_r, Hfresh|simpl; lia].
    destruct Hx as [[e He]|Hw].
    + rewrite Hexact in He. destruct (includes_star event).
      * left. left. eauto.
      * destruct (decide (e = event)) as [->|]; [|left; left; eauto].
        apply elem_of_app in He as [He| ->%list_elem_of_singleton];
          [left; left; eauto|by right].
    + rewrite Hwild in Hw. destruct (includes_star event); [|by left; right].
      apply elem_of_app in Hw as [Hw| ->%list_elem_of_singleton];
        [by left; right|by right].
Qed.

Lemma same_registry_consistent st st' :
  same_registry st st' → allocated st = allocated st' →
  consistent st' → consistent st.
Proof.
  intros Hs Ha [Hwf Hfresh]. split.
  - by apply (same_registry_well_formed st st').
  - intros x Hx. rewrite Ha.
    apply Hfresh, (same_registry_registered st' st); [|done].
    by apply same_registry_sym.
Qed.

End Consistent.

(** [on] files the new entry behind the entries of its own priority. *)
Lemma on_stable {Payload} (st : Emitter Payload) event listener options k :
  let st' := (on event listener options st).2 in
  let new := sub_stored (on event listener options st).1 in
  if includes_star event
  then filter (λ w, priority (stored w) = k) (wildcardListeners st')
       = filter (λ w, priority (stored w) = k)
                (wildcardListeners st ++ [mkWild event new])
       ∧ descending (priority ∘ stored) (wildcardListeners st')
  else filter (λ s, priority s = k) (exact_of event st')
       = filter (λ s, priority s = k) (exact_of event st ++ [new])
       ∧ descending priority (exact_of event st').
Proof.
  unfold on. simpl. destruct (includes_star event); simpl.
  - split.
    + by apply (js_sort_stable (priority ∘ stored) by_stored_priority).
    + by apply (js_sort_descending (priority ∘ stored) by_stored_priority).
  - assert (Hex : ∀ c m w, exact_of event
             (if c : bool
              then set_console w
                     (set_listeners m (set_allocated (S (allocated st)) st))
              else set_listeners m (set_allocated (S (allocated st)) st))
           = default [] (m !! event)) by (by intros []).
    rewrite Hex, lookup_insert_eq. simpl. split.
    + by apply (js_sort_stable priority by_priority).
    + by apply (js_sort_descending priority by_priority).
Qed.

Section Discipline.
Context {Payload : Type}.
Implicit Types (st : Emitter Payload) (x : StoredListener).

Lemma evolves_refl st : evolves st st.
Proof. by split. Qed.

Lemma evolves_trans st1 st2 st3 :
  evolves st1 st2 → evolves st2 st3 → evolves st1 st3.
Proof.
  intros (Ha & He & Hw) (Ha' & He' & Hw'). split; [lia|]. split.
  - intros e x Hx H3. apply He; [done|]. apply He'; [lia|done].
  - intros x Hx H3. apply Hw; [done|]. apply Hw'; [lia|done].
Qed.

Lemma shrinks_evolves st st' : shrinks st st' → evolves st st'.
Proof.
  intros (Ha & He & Hw). split; [lia|]. split.
  - intros e x _. apply sublist_subseteq, He.
  - intros x _. by apply sublist_subseteq, fmap_sublist.
Qed.

Lemma shrinks_consistent st st' :
  shrinks st st' → consistent st → consistent st'.
Proof.
  intros (Ha & He & Hw) [Hwf Hfresh].
  assert (Hex : ∀ e x, x ∈ exact_of e st' → x ∈ exact_of e st)
    by (intros e x; apply sublist_subseteq, He).
  assert (Hwi : ∀ x, x ∈ stored <$> wildcardListeners st'
                     → x ∈ stored <$> wildcardListeners st)
    by (intros x; by apply sublist_subseteq, fmap_sublist).
  split; [split|].
  - intros e. eapply sublist_NoDup; [apply (wf_exact _ Hwf)|apply He].
  - eapply sublist_NoDup; [apply (wf_wild _ Hwf)|by apply fmap_sublist].
  - intros e1 e2 x H1 H2. eapply (wf_keys _ Hwf); eauto.
  - intros e x H1 H2. eapply (wf_apart _ Hwf); eauto.
  - intros x Hx. rewrite Ha. apply Hfresh.
    destruct Hx as [[e H]|H]; [left; eauto|right; eauto].
Qed.

Lemma same_registry_shrinks st st' :
  same_registry st' st → allocated st' = allocated st → shrinks st st'.
Proof.
  intros Hs Ha. split; [done|]. split.
  - intros e. by rewrite (same_registry_exact_of st' st e Hs).
  - destruct Hs as [_ ->]. done.
Qed.

Lemma pruneOnce_shrinks event fired st : shrinks st (pruneOnce event fired st).
Proof.
  split; [|split].
  - by destruct (pruneOnce_other_fields event fired st) as (_&_&_&_&_&->).
  - intros e. apply exact_of_pruneOnce_sublist.
  - apply wild_pruneOnce_sublist.
Qed.

Lemma off_exact_of sub st e :
  exact_of e (off sub st)
  = if sub_isWild sub then exact_of e st
    else if decide (e = sub_event sub)
         then splice_found (λ s, bool_decide (s = sub_stored sub))
                           (exact_of (sub_event sub) st)
         else exact_of e st.
Proof.
  unfold off, exact_of. destruct (sub_isWild sub); [done|].
  destruct (listeners st !! sub_event sub) as [list|] eqn:Hl.
  - case_bool_decide as Hempty; simpl.
    + apply nil_length_inv in Hempty. rewrite Hempty.
      destruct (decide (e = sub_event sub)) as [->|Hne].
      * by rewrite lookup_delete_eq.
      * by rewrite lookup_delete_ne.
    + destruct (decide (e = sub_event sub)) as [->|Hne].
      * by rewrite lookup_insert_eq.
      * by rewrite lookup_insert_ne.
  - destruct (decide (e = sub_event sub)) as [->|Hne]; [|done].
    by rewrite Hl.
Qed.

Lemma off_wildcardListeners sub st :
  wildcardListeners (off sub st)
  = if sub_isWild sub
    then splice_found (λ w, bool_decide (stored w = sub_stored sub))
                      (wildcardListeners st)
    else wildcardListeners st.
Proof.
  unfold off. destruct (sub_isWild sub); [done|].
  destruct (listeners st !! sub_event sub); [|done]. by case_bool_decide.
Qed.

Lemma off_allocated sub st : allocated (off sub st) = allocated st.
Proof.
  unfold off. destruct (sub_isWild sub); [done|].
  destruct (listeners st !! sub_event sub); [|done]. by case_bool_decide.
Qed.

Lemma off_shrinks sub st : shrinks st (off sub st).
Proof.
  split; [apply off_allocated|]. split.
  - intros e. rewrite off_exact_of. destruct (sub_isWild sub); [done|].
    destruct (decide (e = sub_event sub)) as [->|]; [|done].
    apply splice_found_sublist.
  - rewrite off_wildcardListeners. destruct (sub_isWild sub); [|done].
    apply splice_found_sublist.
Qed.

Lemma clear_shrinks event st : shrinks st (clear event st).
Proof.
  destruct event as [ev|]; (split; [done|]); split.
  - intros e. unfold exact_of. simpl.
    destruct (decide (e = ev)) as [->|Hne].
    + rewrite lookup_delete_eq. apply sublist_nil_l.
    + by rewrite lookup_delete_ne.
  - apply sublist_filter.
  - intros e. unfold exact_of. simpl. rewrite lookup_empty. apply sublist_nil_l.
  - apply sublist_nil_l.
Qed.

Lemma dispose_shrinks st : shrinks st (dispose st).
Proof.
  split; [done|]. split.
  - intros e. unfold exact_of. simpl. rewrite lookup_empty. apply sublist_nil_l.
  - apply sublist_nil_l.
Qed.

Lemma on_evolves event listener options st :
  evolves st (on event listener options st).2.
Proof.
  split; [rewrite on_allocated; lia|]. split.
  - intros e x Hx. rewrite on_exact_of.
    destruct (includes_star event); [done|].
    destruct (decide (e = event)) as [->|]; [|done].
    rewrite elem_of_js_sort.
    intros [H| ->%list_elem_of_singleton]%elem_of_app; [done|].
    simpl in Hx. lia.
  - intros x Hx. rewrite on_wildcardListeners.
    destruct (includes_star event); [|done].
    rewrite list_elem_of_fmap. intros (w & -> & Hw).
    apply elem_of_js_sort in Hw.
    apply elem_of_app in Hw as [Hw| ->%list_elem_of_singleton].
    + apply list_elem_of_fmap. eauto.
    + simpl in Hx. lia.
Qed.

End Discipline.

(** Reading off a small registry who is held. *)
Lemma registered_inspect {Payload} (st : Emitter Payload) x key y w :
  listeners st = <[key := [y]]> ∅ →
  wildcardListeners st = [w] →
  registered x st → x = y ∨ x = stored w.
Proof.
  intros Hl Hw [[e He]|Hx].
  - unfold exact_of in He. rewrite Hl in He.
    destruct (decide (e = key)) as [->|Hne].
    + rewrite lookup_insert_eq in He. left.
      by apply list_elem_of_singleton in He.
    + rewrite lookup_insert_ne, lookup_empty in He by done.
      by apply elem_of_nil in He.
  - rewrite Hw in Hx. right. by apply list_elem_of_singleton in Hx.
Qed.

(** ** Dispatch, replay and the buffer *)

Section Dispatch.
Context {Payload Err : Type}.
Variable apply_fn : FnId → Payload → Emitter Payload → Completion Payload Err unit.
Implicit Types (st : Emitter Payload) (x : StoredListener) (p : Payload).

(** *** The shape of [dispatch] *)

Lemma dispatch_unfold event p st :
  dispatch apply_fn event p st
  = match collectListeners event st with
    | [] => ([], Normal false st)
    | s :: ls =>
        match invoke_all apply_fn (s :: ls) p st with
        | (calls, Normal _ st') =>
            (calls, Normal true (pruneOnce event (s :: ls) st'))
        | (calls, Throw e st') => (calls, Throw e st')
        end
    end.
Proof.
  unfold dispatch.
  destruct (collectListeners event st) as [|s ls] eqn:Hc; [done|].
  rewrite bool_decide_eq_false_2 by done. done.
Qed.

Abbreviation invoke_all := (invoke_all apply_fn).
Abbreviation dispatch := (dispatch apply_fn).
Abbreviation emit := (emit apply_fn).
Abbreviation replay := (replay apply_fn).
Abbreviation resume := (resume apply_fn).

Lemma invoke_all_cons s rest p st :
  invoke_all (s :: rest) p st
  = match apply_fn (fn s) p st with
    | Normal _ st' =>
        ((s, p) :: (invoke_all rest p st').1, (invoke_all rest p st').2)
    | Throw e st' => ([(s, p)], Throw e st')
    end.
Proof.
  simpl. destruct (apply_fn (fn s) p st); [|done].
  by destruct (invoke_all rest p st0).
Qed.

(** The loop calls the listeners in array order, each with the payload,
    and stops at the first one that throws. *)
Lemma invoke_all_prefix ls p : ∀ st,
  ∃ n, (invoke_all ls p st).1 = (., p) <$> take n ls.
Proof.
  induction ls as [|s ls IH]; intros st.
  - by exists O.
  - rewrite invoke_all_cons. destruct (apply_fn (fn s) p st) as [v st'|e st'].
    + destruct (IH st') as [n Hn]. exists (S n). simpl. by rewrite Hn.
    + by exists 1%nat.
Qed.

Lemma invoke_all_normal ls p : ∀ st v st',
  (invoke_all ls p st).2 = Normal v st' →
  (invoke_all ls p st).1 = (., p) <$> ls.
Proof.
  induction ls as [|s ls IH]; intros st v st' H; [done|].
  rewrite invoke_all_cons in *.
  destruct (apply_fn (fn s) p st) as [v0 st0|e st0]; [|done].
  simpl in *. f_equal. eauto.
Qed.


(** A property of the state that every listener keeps is kept by the loop. *)
Lemma invoke_all_preserves (I : Emitter Payload → Prop) :
  (∀ f p st, I st → I (state_of (apply_fn f p st))) →
  ∀ ls p st, I st → I (state_of (invoke_all ls p st).2).
Proof.
  intros HI ls p. induction ls as [|s ls IH]; intros st Hst; [done|].
  rewrite invoke_all_cons. specialize (HI (fn s) p st Hst).
  destruct (apply_fn (fn s) p st) as [v st'|e st']; simpl in *; [|done].
  by apply IH.
Qed.

Lemma invoke_all_inert ls p st :
  inert apply_fn → invoke_all ls p st = ((., p) <$> ls, Normal tt st).
Proof.
  intros Hq. induction ls as [|s ls IH]; [done|].
  rewrite invoke_all_cons, Hq, IH. done.
Qed.


(** Whatever the listeners do to the registries while they run, the calls
    of a dispatch are drawn, in order, from the list collected at its
    start: all of it when the dispatch completes, a prefix when a
    listener throws. *)
Lemma dispatch_snapshot event p st :
  match dispatch event p st with
  | (calls, Normal _ _) => calls = (., p) <$> collectListeners event st
  | (calls, Throw _ _) =>
      ∃ n, calls = (., p) <$> take n (collectListeners event st)
  end.
Proof.
  rewrite dispatch_unfold.
  destruct (collectListeners event st) as [|s ls] eqn:Hc; [done|].
  pose proof (invoke_all_prefix (s :: ls) p st) as Hpre.
  pose proof (invoke_all_normal (s :: ls) p st) as Hnorm.
  destruct (invoke_all (s :: ls) p st) as [calls [v st'|e st']]; simpl in *.
  - by eapply Hnorm.
  - done.
Qed.

Lemma dispatch_calls_collected event p st x q :
  (x, q) ∈ (dispatch event p st).1 → x ∈ collectListeners event st.
Proof.
  pose proof (dispatch_snapshot event p st) as H.
  destruct (dispatch event p st) as [calls [b st'|e st']]; simpl.
  - subst calls. intros (y & [= -> ->] & Hy)%list_elem_of_fmap. done.
  - destruct H as [n ->].
    intros (y & [= -> ->] & Hy)%list_elem_of_fmap.
    eapply sublist_subseteq; [apply sublist_take|done].
Qed.

Lemma dispatch_preserves (I : Emitter Payload → Prop) :
  (∀ f p st, I st → I (state_of (apply_fn f p st))) →
  (∀ event fired st, I st → I (pruneOnce event fired st)) →
  ∀ event p st, I st → I (state_of (dispatch event p st).2).
Proof.
  intros Hf Hp event p st Hst. rewrite dispatch_unfold.
  destruct (collectListeners event st) as [|s ls]; [done|].
  pose proof (invoke_all_preserves I Hf (s :: ls) p st Hst) as H.
  destruct (invoke_all (s :: ls) p st) as [calls [v st'|e st']]; simpl in *.
  - by apply Hp.
  - done.
Qed.

Lemma replay_cons event p rest st :
  replay ((event, p) :: rest) st
  = match dispatch event p st with
    | (calls, Normal _ st') =>
        (calls ++ (replay rest st').1, (replay rest st').2)
    | (calls, Throw e st') => (calls, Throw e st')
    end.
Proof.
  simpl. destruct (dispatch event p st) as [calls [v st'|e st']]; [|done].
  by destruct (replay rest st').
Qed.

Lemma replay_preserves (I : Emitter Payload → Prop) :
  (∀ f p st, I st → I (state_of (apply_fn f p st))) →
  (∀ event fired st, I st → I (pruneOnce event fired st)) →
  ∀ pending st, I st → I (state_of (replay pending st).2).
Proof.
  intros Hf Hp pending.
  induction pending as [|[event p] rest IH]; intros st Hst; [done|].
  rewrite replay_cons.
  pose proof (dispatch_preserves I Hf Hp event p st Hst) as H.
  destruct (dispatch event p st) as [calls [v st'|e st']]; simpl in *.
  - by apply IH.
  - done.
Qed.

Lemma dispatch_inert event p st :
  inert apply_fn →
  dispatch event p st
  = match collectListeners event st with
    | [] => ([], Normal false st)
    | s :: ls =>
        ((., p) <$> s :: ls, Normal true (pruneOnce event (s :: ls) st))
    end.
Proof.
  intros Hq. rewrite dispatch_unfold.
  destruct (collectListeners event st) as [|s ls]; [done|].
  by rewrite invoke_all_inert.
Qed.

End Dispatch.

Section Bound.
Context {Payload Err : Type}.
Variable apply_fn : FnId → Payload → Emitter Payload → Completion Payload Err unit.
Implicit Types (st : Emitter Payload) (op : Op Payload).

Lemma on_buffer event listener options st :
  buffer (on event listener options st).2 = buffer st ∧
  maxBufferSize (on event listener options st).2 = maxBufferSize st.
Proof.
  unfold on. simpl. destruct (includes_star event); simpl; [done|].
  by destruct (_ && _).
Qed.

Lemma off_buffer sub st :
  buffer (off sub st) = buffer st ∧
  maxBufferSize (off sub st) = maxBufferSize st.
Proof.
  unfold off. destruct (sub_isWild sub); [done|].
  destruct (listeners st !! sub_event sub); [|done].
  by case_bool_decide.
Qed.

Lemma pruneOnce_bounded event fired st :
  bounded st → bounded (pruneOnce event fired st).
Proof.
  unfold bounded.
  destruct (pruneOnce_other_fields event fired st) as (-> & -> & _). done.
Qed.

Lemma emit_bounded event p st :
  bound_preserving apply_fn → bounded st →
  bounded (state_of (emit apply_fn event p st).2).
Proof.
  intros Hf Hst. unfold emit. destruct (paused st); simpl.
  - destruct (Z.ltb_spec (Z.of_nat (length (buffer st))) (maxBufferSize st));
      [|done].
    unfold bounded in *. simpl. rewrite length_app. simpl. lia.
  - apply (dispatch_preserves apply_fn bounded); auto using pruneOnce_bounded.
Qed.

Lemma resume_bounded st :
  bound_preserving apply_fn → bounded st →
  bounded (state_of (resume apply_fn st).2).
Proof.
  intros Hf Hst. unfold resume.
  apply (replay_preserves apply_fn bounded); auto using pruneOnce_bounded.
  unfold bounded in *. simpl. lia.
Qed.

Lemma run_op_bounded op st :
  bound_preserving apply_fn → bounded st → admissible op st →
  bounded (run_op apply_fn op st).
Proof.
  intros Hf Hst Hop. destruct op; unfold run_op, admissible in *.
  - done.
  - done.
  - unfold bounded. by destruct (on_buffer event listener options st) as [-> ->].
  - unfold bounded, once_.
    by destruct (on_buffer event listener
                   (mkOptions (Some true) (opt_priority options)) st) as [-> ->].
  - unfold bounded. by destruct (off_buffer sub st) as [-> ->].
  - by apply emit_bounded.
  - done.
  - by apply resume_bounded.
  - by destruct event.
  - unfold bounded in *. simpl. lia.
Qed.

Lemma run_ops_cons op ops st :
  run_ops apply_fn (op :: ops) st = run_ops apply_fn ops (run_op apply_fn op st).
Proof. done. Qed.

Lemma run_ops_bounded ops : ∀ st,
  bound_preserving apply_fn → bounded st → admissible_run apply_fn ops st →
  ∀ k, bounded (run_ops apply_fn (take k ops) st).
Proof.
  induction ops as [|op ops IH]; intros st Hf Hst Hops k.
  - by rewrite take_nil.
  - destruct k as [|k]; [done|].
    destruct Hops as [Hop Hops].
    rewrite firstn_cons, run_ops_cons.
    apply IH; [done| |done]. by apply run_op_bounded.
Qed.

(** Publishing while paused: what one call does. *)
Lemma emit_paused_full event p st :
  paused st = true →
  maxBufferSize st ≤ Z.of_nat (length (buffer st)) →
  emit apply_fn event p st = ([], Normal false st).
Proof.
  intros Hp Hfull. unfold emit. rewrite Hp.
  by rewrite (proj2 (Z.ltb_ge _ _)).
Qed.

Lemma emit_paused_room event p st :
  paused st = true →
  Z.of_nat (length (buffer st)) < maxBufferSize st →
  emit apply_fn event p st
  = ([], Normal false (set_buffer (buffer st ++ [(event, p)]) st)).
Proof.
  intros Hp Hroom. unfold emit. rewrite Hp.
  by rewrite (proj2 (Z.ltb_lt _ _)).
Qed.

Lemma publish_all_paused_full pubs st :
  paused st = true →
  maxBufferSize st ≤ Z.of_nat (length (buffer st)) →
  publish_all apply_fn pubs st = st.
Proof.
  intros Hp Hfull. induction pubs as [|[e p] pubs IH]; [done|].
  unfold publish_all in *. simpl. by rewrite emit_paused_full.
Qed.

End Bound.

Section Received.
Context {Payload Err : Type}.
Variable apply_fn : FnId → Payload → Emitter Payload → Completion Payload Err unit.
Implicit Types (st : Emitter Payload) (x : StoredListener) (p : Payload).

Lemma received_app x (c1 c2 : list (StoredListener * Payload)) :
  received x (c1 ++ c2) = received x c1 ++ received x c2.
Proof. unfold received. by rewrite filter_app, fmap_app. Qed.

Lemma received_none x (calls : list (StoredListener * Payload)) :
  (∀ q, (x, q) ∉ calls) → received x calls = [].
Proof.
  intros H. unfold received.
  induction calls as [|[y q] calls IH]; [done|].
  rewrite filter_cons. simpl. case_decide as Hy.
  - subst y. exfalso. apply (H q). by left.
  - apply IH. intros q' Hq'. apply (H q'). by right.
Qed.

Lemma received_not_called x p (l : list StoredListener) :
  x ∉ l → received x ((., p) <$> l) = [].
Proof.
  intros Hx. apply received_none.
  intros q (y & [= -> ->] & Hy)%list_elem_of_fmap. done.
Qed.

(** Called once, an entry that occurs once receives the payload once. *)
Lemma received_called x p (l : list StoredListener) :
  NoDup l → x ∈ l → received x ((., p) <$> l) = [p].
Proof.
  induction l as [|y l IH]; intros Hnd Hx; [by apply elem_of_nil in Hx|].
  apply NoDup_cons in Hnd as [Hy Hnd].
  rewrite fmap_cons.
  change ((y, p) :: ((., p) <$> l)) with ([(y, p)] ++ ((., p) <$> l)).
  rewrite received_app.
  destruct (decide (y = x)) as [->|Hne].
  - rewrite (received_not_called x p l Hy).
    unfold received. rewrite filter_cons. simpl. by rewrite decide_True.
  - apply elem_of_cons in Hx as [->|Hx]; [done|].
    rewrite IH by done.
    unfold received. rewrite filter_cons. simpl. by rewrite decide_False.
Qed.

(** With inert listeners a dispatch calls the collected list and prunes. *)
Lemma dispatch_inert_eq event p st :
  inert apply_fn →
  ∃ b, dispatch apply_fn event p st
       = ((., p) <$> collectListeners event st,
          Normal b (pruneOnce event (collectListeners event st) st)).
Proof.
  intros Hq. rewrite (dispatch_inert apply_fn) by done.
  destruct (collectListeners event st) as [|s ls]; [by exists false|by exists true].
Qed.

Lemma replay_inert_completes pending : ∀ st,
  inert apply_fn →
  ∃ st', (replay apply_fn pending st).2 = Normal tt st' ∧
         buffer st' = buffer st ∧ paused st' = paused st.
Proof.
  induction pending as [|[e p] rest IH]; intros st Hq; [by exists st|].
  rewrite replay_cons.
  destruct (dispatch_inert_eq e p st Hq) as [b ->].
  destruct (IH (pruneOnce e (collectListeners e st) st) Hq)
    as (st' & Hst' & Hb & Hp).
  exists st'. simpl. split; [done|].
  destruct (pruneOnce_other_fields e (collectListeners e st) st)
    as (Hb' & _ & Hp' & _).
  split; congruence.
Qed.

(** An entry that is not registered when the replay starts is not called. *)
Lemma replay_inert_unregistered x pending : ∀ st,
  inert apply_fn → ¬ registered x st →
  received x (replay apply_fn pending st).1 = [].
Proof.
  induction pending as [|[e p] rest IH]; intros st Hq Hx; [done|].
  rewrite replay_cons.
  destruct (dispatch_inert_eq e p st Hq) as [b ->]. simpl.
  rewrite received_app, received_not_called, IH; [done|done| |].
  - intros H. by apply Hx, (pruneOnce_registered e (collectListeners e st)).
  - intros H. by apply Hx, (collected_registered x e).
Qed.

(** An entry without the once flag is called for each buffered event it
    is collected for, in buffer order. *)
Lemma replay_inert_persistent x pending : ∀ st,
  inert apply_fn → well_formed st → once x = false →
  received x (replay apply_fn pending st).1
  = (filter (λ ep, x ∈ collectListeners ep.1 st) pending).*2.
Proof.
  induction pending as [|[e p] rest IH]; intros st Hq Hwf Hx; [done|].
  rewrite replay_cons.
  destruct (dispatch_inert_eq e p st Hq) as [b ->]. simpl.
  rewrite received_app, IH; [|done|by apply pruneOnce_well_formed|done].
  rewrite filter_cons. simpl.
  rewrite (list_filter_iff
             (λ ep, x ∈ collectListeners ep.1
                          (pruneOnce e (collectListeners e st) st))
             (λ ep, x ∈ collectListeners ep.1 st)).
  2:{ intros ep. apply pruneOnce_spares_collected. by apply not_once_of. }
  case_decide as Hin.
  - rewrite received_called; [done|by apply NoDup_collectListeners|done].
  - by rewrite received_not_called.
Qed.

(** A once entry is called for the first such event only. *)
Lemma replay_inert_once x pending : ∀ st,
  inert apply_fn → well_formed st → once x = true →
  received x (replay apply_fn pending st).1
  = take 1 (filter (λ ep, x ∈ collectListeners ep.1 st) pending).*2.
Proof.
  induction pending as [|[e p] rest IH]; intros st Hq Hwf Hx; [done|].
  rewrite replay_cons.
  destruct (dispatch_inert_eq e p st Hq) as [b ->]. simpl.
  rewrite received_app, filter_cons. simpl.
  case_decide as Hin.
  - rewrite received_called; [|by apply NoDup_collectListeners|done].
    rewrite replay_inert_unregistered; [done|done|].
    by apply pruneOnce_removes.
  - rewrite received_not_called by done.
    rewrite IH; [|done|by apply pruneOnce_well_formed|done].
    simpl. f_equal. f_equal. apply list_filter_iff.
    intros ep. apply pruneOnce_spares_collected.
    intros [_ H]%list_elem_of_filter. done.
Qed.

End Received.

(** *** Replay with listeners that leave the subscriptions alone *)

Section Replayed.
Context {Payload Err : Type}.
Variable apply_fn : FnId → Payload → Emitter Payload → Completion Payload Err unit.
Implicit Types (st : Emitter Payload) (x : StoredListener) (p : Payload).






End Replayed.


Section Disciplined.
Context {Payload Err : Type}.
Variable apply_fn : FnId → Payload → Emitter Payload → Completion Payload Err unit.
Implicit Types (st : Emitter Payload) (x : StoredListener).

Lemma reached_step st0 st st' :
  reached st0 st → consistent st' → evolves st st' → reached st0 st'.
Proof. intros [_ H] ? ?. split; [done|]. by apply (evolves_trans st0 st st'). Qed.

Lemma reached_listener st0 :
  disciplined apply_fn →
  ∀ f p st, reached st0 st → reached st0 (state_of (apply_fn f p st)).
Proof.
  intros Hd f p st Hr. destruct (Hd f p st) as [Hc He]; [apply Hr|].
  by apply (reached_step st0 st).
Qed.

Lemma reached_pruneOnce st0 event fired st :
  reached st0 st → reached st0 (pruneOnce event fired st).
Proof.
  intros Hr. apply (reached_step st0 st); [done| |].
  - apply (shrinks_consistent st); [apply pruneOnce_shrinks|apply Hr].
  - apply shrinks_evolves, pruneOnce_shrinks.
Qed.

Lemma invoke_all_disciplined ls p st :
  disciplined apply_fn → consistent st →
  reached st (state_of (invoke_all apply_fn ls p st).2).
Proof.
  intros Hd Hc.
  apply (invoke_all_preserves apply_fn (reached st)).
  - by apply reached_listener.
  - split; [done|apply evolves_refl].
Qed.

(** A publish made by a disciplined listener is disciplined itself. *)
Lemma emit_disciplined event p st :
  disciplined apply_fn → consistent st →
  reached st (state_of (emit apply_fn event p st).2).
Proof.
  intros Hd Hc. unfold emit. destruct (paused st).
  - simpl. destruct (_ <? _); [|split; [done|apply evolves_refl]].
    split.
    + by apply (same_registry_consistent _ st).
    + by apply shrinks_evolves, same_registry_shrinks.
  - apply (dispatch_preserves apply_fn (reached st)).
    + by apply reached_listener.
    + intros. by apply reached_pruneOnce.
    + split; [done|apply evolves_refl].
Qed.

Lemma resume_disciplined st :
  disciplined apply_fn → consistent st →
  reached st (state_of (resume apply_fn st).2).
Proof.
  intros Hd Hc. unfold resume.
  assert (H0 : reached st (set_buffer [] (set_paused false st))).
  { split.
    - by apply (same_registry_consistent _ st).
    - by apply shrinks_evolves, same_registry_shrinks. }
  apply (replay_preserves apply_fn (reached st)); [| |done].
  - by apply reached_listener.
  - intros. by apply reached_pruneOnce.
Qed.

(** Every state reached by public operations is consistent. *)
Lemma run_op_consistent (op : Op Payload) st :
  disciplined apply_fn → consistent st → consistent (run_op apply_fn op st).
Proof.
  intros Hd Hc. destruct op; unfold run_op.
  - by apply (same_registry_consistent _ st).
  - by apply (same_registry_consistent _ st).
  - by apply on_consistent.
  - unfold once_. by apply on_consistent.
  - apply (shrinks_consistent st); [apply off_shrinks|done].
  - by apply emit_disciplined.
  - by apply (same_registry_consistent _ st).
  - by apply resume_disciplined.
  - apply (shrinks_consistent st); [apply clear_shrinks|done].
  - apply (shrinks_consistent st); [apply dispose_shrinks|done].
Qed.

Lemma run_ops_consistent (ops : list (Op Payload)) :
  disciplined apply_fn →
  ∀ st, consistent st → consistent (run_ops apply_fn ops st).
Proof.
  intros Hd. induction ops as [|op ops IH]; intros st Hc; [done|].
  apply IH. by apply run_op_consistent.
Qed.

Lemma new_Emitter_consistent (options : option (EmitterOptions Payload Err)) :
  consistent (new_Emitter options).
Proof. by apply consistent_empty. Qed.

End Disciplined.

(** ** The scenarios *)


Lemma quiet_fn_bound_preserving : bound_preserving quiet_fn.
Proof. intros f p st H. exact H. Qed.

Lemma quiet_fn_inert : inert quiet_fn.
Proof. intros f p st. reflexivity. Qed.


Lemma changes_while_paused_well_formed : well_formed changes_while_paused.
Proof.
  apply (same_registry_well_formed _
           (once_ "*" 3%nat no_options
              (on "tick" 2%nat no_options
                 (set_allocated 1 (new_Emitter (Err:=string) None))).2).2).
  - split; vm_compute; reflexivity.
  - unfold once_. do 2 apply on_consistent. by apply consistent_empty.
Qed.

Lemma changes_while_paused_listeners :
  listeners changes_while_paused
  = <["tick" := [mkStored 1%nat 2%nat false 0]]> ∅.
Proof. vm_compute. reflexivity. Qed.

Lemma changes_while_paused_wildcards :
  wildcardListeners changes_while_paused
  = [mkWild "*" (mkStored 2%nat 3%nat true 0)].
Proof. vm_compute. reflexivity. Qed.

Lemma first_tick_unregistered :
  ¬ registered (mkStored 0%nat 1%nat false 0) changes_while_paused.
Proof.
  intros H.
  destruct (registered_inspect _ _ _ _ _ changes_while_paused_listeners
              changes_while_paused_wildcards H) as [Heq|Heq];
    discriminate Heq.
Qed.

Lemma exact_and_once_wildcard_consistent : consistent exact_and_once_wildcard.
Proof.
  unfold exact_and_once_wildcard, once_.
  do 2 apply on_consistent. by apply consistent_empty.
Qed.

Lemma subscribing_fn_disciplined : disciplined subscribing_fn.
Proof.
  intros f p st Hc. unfold subscribing_fn. case_bool_decide; unfold state_of.
  - split; [by apply on_consistent|apply on_evolves].
  - split; [done|apply evolves_refl].
Qed.

(** ** The matcher decides the matching relation *)

Module GlobFacts.
Import Matcher MatcherSpec GlobSpec.

Lemma match_nil_r pp :
  segments_match pp [] ↔ Forall (λ s, s = "**") pp.
Proof.
  split.
  - intros H. remember [] as ep eqn:Hep.
    induction H; try discriminate; auto.
  - induction 1 as [|p pp -> _ IH]; [constructor|]. by apply match_run_empty.
Qed.

Lemma match_cons_other p pp ep :
  p ≠ "**" →
  segments_match (p :: pp) ep
  ↔ ∃ e ep', ep = e :: ep' ∧ one_segment p e ∧ segments_match pp ep'.
Proof.
  intros Hp. split.
  - inversion 1; subst; try done.
    + eexists _, _. split; [done|]. split; [by left|done].
    + eexists _, _. split; [done|]. split; [by right|done].
  - intros (e & ep' & -> & [->| ->] & H).
    + by apply match_one.
    + by apply match_same.
Qed.

Lemma match_run pp ep :
  segments_match ("**" :: pp) ep
  ↔ ∃ s, s `suffix_of` ep ∧ segments_match pp s.
Proof.
  split.
  - intros H. remember ("**" :: pp) as q eqn:Hq.
    induction H as [|pp' ep H _|pp' e ep H IH|pp' e ep H _|p pp' ep Hp H _];
      try discriminate.
    + injection Hq as ->. by exists ep.
    + destruct (IH Hq) as (s & Hs & Hm). exists s. split; [|done].
      by apply suffix_cons_r.
    + injection Hq as -> ->. done.
  - intros (s & [k ->] & Hm).
    induction k as [|e k IH]; [by apply match_run_empty|].
    by apply match_run_more.
Qed.

Lemma match_other_prefix lit : ∀ rest ep,
  "**" ∉ lit →
  segments_match (lit ++ rest) ep
  ↔ ∃ e1 e2, ep = e1 ++ e2 ∧ Forall2 one_segment lit e1
             ∧ segments_match rest e2.
Proof.
  induction lit as [|p lit IH]; intros rest ep Hlit.
  - split.
    + intros H. exists [], ep. by split; [|split; [constructor|]].
    + intros (e1 & e2 & -> & ->%Forall2_nil_inv_l & H). done.
  - apply not_elem_of_cons in Hlit as [Hp Hlit].
    simpl. rewrite match_cons_other by done. split.
    + intros (e & ep' & -> & H1 & (e1 & e2 & -> & H2 & H3)%IH); [|done].
      exists (e :: e1), e2. split; [done|]. split; [by constructor|done].
    + intros (e1 & e2 & -> & H2 & H3).
      apply Forall2_cons_inv_l in H2 as (e & e1' & H1 & H2 & ->).
      exists e, (e1' ++ e2). split; [done|]. split; [done|].
      apply IH; [done|]. by exists e1', e2.
Qed.

Lemma step_view pre rp pre_e re sp se :
  step (pre ++ rp) (pre_e ++ re)
       (Cursors (Z.of_nat (length pre)) (Z.of_nat (length pre_e)) sp se)
  = match re, rp with
    | [], _ =>
        LoopExit (Cursors (Z.of_nat (length pre)) (Z.of_nat (length pre_e)) sp se)
    | y :: _, x :: _ =>
        if bool_decide (x = "**")
        then Continue (Cursors (Z.of_nat (length pre) + 1) (Z.of_nat (length pre_e))
                               (Z.of_nat (length pre)) (Z.of_nat (length pre_e)))
        else if bool_decide (x = "*") || bool_decide (x = y)
        then Continue (Cursors (Z.of_nat (length pre) + 1)
                               (Z.of_nat (length pre_e) + 1) sp se)
        else fallback sp se
    | y :: _, [] => fallback sp se
    end.
Proof.
  unfold step, fallback, seg_is, seg_eq. simpl.
  destruct re as [|y re].
  - by rewrite app_nil_r, Z.ltb_irrefl.
  - rewrite (proj2 (Z.ltb_lt _ (Z.of_nat (length (pre_e ++ y :: re)))))
      by (rewrite length_app; simpl; lia).
    simpl. destruct rp as [|x rp].
    + by rewrite app_nil_r, Z.ltb_irrefl.
    + rewrite (proj2 (Z.ltb_lt _ (Z.of_nat (length (pre ++ x :: rp)))))
        by (rewrite length_app; simpl; lia).
      simpl. rewrite !LiteralFacts.lookup_at_length.
      assert (H1 : ∀ z, bool_decide (Some x = Some z) = bool_decide (x = z)).
      { intros z. apply bool_decide_ext. split; [by intros [= ->]|by intros ->]. }
      by rewrite !H1.
Qed.

Lemma skip_stars_spec n : ∀ pre rp,
  (length rp ≤ n)%nat →
  (skip_stars n (pre ++ rp) (Z.of_nat (length pre))
   =? Z.of_nat (length (pre ++ rp))) = true
  ↔ Forall (λ s, s = "**") rp.
Proof.
  induction n as [|n IH]; intros pre rp Hn.
  - destruct rp; [|simpl in Hn; lia]. simpl. rewrite app_nil_r, Z.eqb_refl.
    split; [constructor|done].
  - simpl. destruct rp as [|x rp].
    + rewrite app_nil_r, Z.ltb_irrefl. simpl. rewrite Z.eqb_refl.
      split; [constructor|done].
    + rewrite (proj2 (Z.ltb_lt _ _)) by (rewrite length_app; simpl; lia).
      unfold seg_is. rewrite LiteralFacts.lookup_at_length. simpl.
      case_bool_decide as Hx.
      * injection Hx as ->.
        replace (pre ++ "**" :: rp) with ((pre ++ ["**"]) ++ rp)
          by (by rewrite <- app_assoc).
        replace (Z.of_nat (length pre) + 1)
          with (Z.of_nat (length (pre ++ ["**"])))
          by (rewrite length_app; simpl; lia).
        rewrite IH by (simpl in Hn; lia).
        split; [by constructor|by inversion 1].
      * split.
        -- intros H%Z.eqb_eq. rewrite length_app in H. simpl in H. lia.
        -- inversion 1; subst. done.
Qed.

(** Nothing but a [**] can face an event segment it does not match. *)
Lemma no_match_here rp y re' :
  match rp with
  | [] => True
  | x :: _ => x ≠ "**" ∧ ¬ one_segment x y
  end →
  ¬ segments_match rp (y :: re').
Proof.
  destruct rp as [|x rp]; [by inversion 2|].
  intros [Hx Hno] (e & ep' & [= <- <-] & H1 & _)%match_cons_other; done.
Qed.

Lemma Forall2_same_length_app (mid : list string) mid_e e1 e2 re :
  Forall2 one_segment mid mid_e → Forall2 one_segment mid e1 →
  e1 ++ e2 = mid_e ++ re → e1 = mid_e ∧ e2 = re.
Proof.
  intros H1 H2 Heq. apply app_inj_1; [|done].
  apply Forall2_length in H1, H2. congruence.
Qed.

Lemma loop_inv_start P E : loop_inv P E start.
Proof.
  exists [], [], P, [], [], E, false. simpl.
  split; [done|]. split; [done|]. split; [done|]. split; [done|].
  split; [by apply not_elem_of_nil|]. split; [constructor|]. split; [done|].
  split; [by exists E|by intros (s & -> & H)].
Qed.

Lemma loop_inv_step P E c : loop_inv P E c → turn_ok P E (step P E c).
Proof.
  intros (done_p & mid & rp & skipped & mid_e & re & anchored
          & HP & HE & Hpi & Hei & Hmid & Hmm & Hanchor & Hequiv).
  destruct c as [p e sp se]. simpl in *.
  assert (Hlen : length mid = length mid_e) by by apply Forall2_length in Hmm.
  assert (Hstep := step_view (done_p ++ mid) rp (skipped ++ mid_e) re sp se).
  rewrite <- !app_assoc, <- HP, <- HE, <- Hpi, <- Hei in Hstep.
  rewrite Hstep. clear Hstep.
  assert (Hhere : segments_match (mid ++ rp) (mid_e ++ re)
                  ↔ segments_match rp re).
  { rewrite match_other_prefix by done. split.
    - intros (e1 & e2 & Heq & H1 & H2).
      destruct (Forall2_same_length_app mid mid_e e1 e2 re) as [-> ->]; done.
    - intros H. by exists mid_e, re. }
  destruct re as [|y re].
  - (* the event is exhausted *)
    assert (Hskip :
      (skip_stars (length P) P p =? Z.of_nat (length P)) = true
      ↔ Forall (λ s, s = "**") rp).
    { assert (HP' : P = (done_p ++ mid) ++ rp) by by rewrite <- app_assoc.
      rewrite HP', Hpi. apply skip_stars_spec. rewrite length_app. lia. }
    unfold turn_ok, pi. rewrite Hskip, <- match_nil_r, Hequiv. split.
    + intros H. exists (mid_e ++ []). split; [by destruct anchored|].
      by apply Hhere.
    + intros (s & Hs & H).
      apply match_other_prefix in H as (e1 & e2 & -> & H1 & H2);
        [|done].
      assert (length (e1 ++ e2) ≤ length (mid_e ++ []))%nat as Hle.
      { destruct anchored; [by apply suffix_length|by rewrite Hs]. }
      rewrite !length_app in Hle. simpl in Hle.
      apply Forall2_length in H1.
      destruct e2; [done|]. simpl in Hle. lia.
  - assert (Hfallback :
      match rp with
      | [] => True
      | x :: _ => x ≠ "**" ∧ ¬ one_segment x y
      end →
      turn_ok P E (fallback sp se)).
    { intros Hno. apply (no_match_here rp y re) in Hno.
      unfold fallback, turn_ok. destruct anchored.
      - destruct Hanchor as (Hsp & Hse & dp & Hdp).
        assert (Hsp1 : sp ≠ -1) by (rewrite Hsp, Hdp, length_app; simpl; lia).
        rewrite (proj2 (Z.eqb_neq sp (-1))) by done. simpl.
        destruct (mid_e ++ y :: re) as [|z base] eqn:Hbase;
          [by destruct mid_e|].
        exists done_p, [], (mid ++ rp), (skipped ++ [z]), [], base, true.
        simpl. rewrite !app_nil_r.
        split; [done|]. split; [by rewrite HE, <- app_assoc|].
        split; [lia|]. split; [rewrite length_app; simpl; lia|].
        split; [by apply not_elem_of_nil|]. split; [constructor|].
        split; [split; [done|split; [rewrite length_app; simpl; lia|eauto]]|].
        rewrite Hequiv. split.
        + intros (s & Hs & H). exists s. split; [|done].
          destruct Hs as [[|z' k] Hk]; simpl in Hk.
          * subst s. by apply Hhere in H.
          * injection Hk as _ ->. by exists k.
        + intros (s & Hs & H). exists s. split; [|done].
          by apply suffix_cons_r.
      - destruct Hanchor as (-> & -> & ->). simpl.
        rewrite Hequiv. intros (s & -> & H). by apply Hhere in H. }
    destruct rp as [|x rp]; [by apply Hfallback|].
    case_bool_decide as Hx.
    + (* a new anchor *)
      subst x. unfold turn_ok.
      exists ((done_p ++ mid) ++ ["**"]), [], rp, (skipped ++ mid_e), [],
             (y :: re), true.
      simpl. rewrite !app_nil_r.
      split; [by rewrite HP, <- !app_assoc|].
      split; [by rewrite HE, <- !app_assoc|].
      split; [rewrite Hpi, !length_app; simpl; lia|].
      split; [lia|].
      split; [by apply not_elem_of_nil|]. split; [constructor|].
      split; [split; [rewrite Hpi, !length_app; simpl; lia|split; [lia|eauto]]|].
      rewrite Hequiv. split.
      * intros (s & Hs & H).
        apply match_other_prefix in H as (e1 & e2 & -> & H1 & H2);
          [|done].
        apply match_run in H2 as (s' & Hs' & H2).
        exists s'. split; [|done].
        assert (e2 `suffix_of` mid_e ++ y :: re) as He2.
        { destruct anchored.
          - etrans; [|exact Hs]. by apply suffix_app_r.
          - rewrite <- Hs. by apply suffix_app_r. }
        assert (e2 `suffix_of` y :: re); [|by etrans].
        destruct (suffix_weak_total e2 (y :: re) (mid_e ++ y :: re))
          as [|Hlong]; [done|by apply suffix_app_r|done|].
        assert (length e2 ≤ length (y :: re))%nat.
        { apply Forall2_length in H1.
          assert (length (e1 ++ e2) ≤ length (mid_e ++ y :: re))%nat as Hle.
          { destruct anchored; [by apply suffix_length|by rewrite Hs]. }
          rewrite !length_app in Hle. lia. }
        apply suffix_length in Hlong as Hlen'.
        assert (e2 = y :: re) as ->; [|done].
        symmetry. apply (suffix_length_eq _ _ Hlong). lia.
      * intros (s & Hs & H). exists (mid_e ++ y :: re).
        split; [by destruct anchored|].
        apply match_other_prefix; [done|].
        exists mid_e, (y :: re). split; [done|]. split; [done|].
        apply match_run. by exists s.
    + destruct (bool_decide (x = "*") || bool_decide (x = y)) eqn:Hxy.
      * (* one more segment matched *)
        assert (one_segment x y).
        { apply orb_true_iff in Hxy as [?%bool_decide_eq_true|?%bool_decide_eq_true];
            [by left|by right]. }
        unfold turn_ok.
        exists done_p, (mid ++ [x]), rp, skipped, (mid_e ++ [y]), re, anchored.
        split; [by rewrite HP, <- !app_assoc|].
        split; [by rewrite HE, <- !app_assoc|].
        split; [rewrite Hpi, !length_app; simpl; lia|].
        split; [rewrite Hei, !length_app; simpl; lia|].
        split; [by intros [?|?%list_elem_of_singleton]%elem_of_app|].
        split; [apply Forall2_app; [done|by constructor]|].
        split; [done|].
        by rewrite <- !app_assoc.
      * apply Hfallback. split; [done|].
        apply orb_false_iff in Hxy as [?%bool_decide_eq_false ?%bool_decide_eq_false].
        by intros [?|?].
Qed.

Lemma main_loop_correct P E fuel : ∀ c r,
  loop_inv P E c →
  main_loop fuel P E c = Some r →
  finish P (Some r) = Some true ↔ segments_match P E.
Proof.
  induction fuel as [|fuel IH]; intros c r Hinv Hrun; [done|].
  simpl in Hrun. pose proof (loop_inv_step P E c Hinv) as Hstep.
  destruct (step P E c) as [c'| |c']; unfold turn_ok in Hstep.
  - by apply (IH c').
  - injection Hrun as <-. simpl. split; [done|by intros ?%Hstep].
  - injection Hrun as <-. simpl. rewrite <- Hstep.
    split; [by intros [= ->]|by intros ->].
Qed.

Lemma match_parts_correct P E :
  match_parts P E = Some true ↔ segments_match P E.
Proof.
  unfold match_parts.
  pose proof (MatcherFacts.main_loop_total P E) as Htotal.
  destruct (main_loop (enough_fuel P E) P E start) as [r|] eqn:Hrun; [|done].
  by apply (main_loop_correct P E (enough_fuel P E) start r);
    [apply loop_inv_start|].
Qed.

Lemma match_all ep : segments_match ["**"] ep.
Proof.
  induction ep as [|e ep IH];
    [apply match_run_empty, match_end|by apply match_run_more].
Qed.

Lemma Forall2_one_segment_literal lit e1 :
  "*" ∉ lit → Forall2 one_segment lit e1 → lit = e1.
Proof.
  intros Hlit H. induction H as [|x y l l' [->| ->] _ IH]; [done| |].
  - by apply not_elem_of_cons in Hlit as [? _].
  - apply not_elem_of_cons in Hlit as [_ ?]. by rewrite IH.
Qed.

Lemma match_no_run lit ep :
  "**" ∉ lit → segments_match lit ep ↔ Forall2 one_segment lit ep.
Proof.
  intros Hlit. rewrite <- (app_nil_r lit) at 1.
  rewrite match_other_prefix by done. split.
  - intros (e1 & e2 & -> & H1 & H2). inversion H2. by rewrite app_nil_r.
  - intros H. exists ep, []. rewrite app_nil_r. repeat split; [done|constructor].
Qed.

End GlobFacts.

(** [matchWildcard] answers true exactly on the matching segment
    sequences. *)
Lemma matchWildcard_segments_match p e :
  matchWildcard p e = true ↔ segments_match (split p) (split e).
Proof.
  rewrite <- GlobFacts.match_parts_correct, matchWildcard_total.
  split; [by intros ->|by intros [= ->]].
Qed.

(** ** The shape of the registries *)

Section SortedFacts.
Context {A : Type} (key : A → Z) (cmp : A → A → Z).
Hypothesis cmp_key : ∀ a b, cmp a b = key b - key a.

Lemma descending_sublist (l1 l2 : list A) :
  l1 `sublist_of` l2 → descending key l2 → descending key l1.
Proof.
  intros Hsub Hl2. induction Hsub as [|x l1 l2 Hsub IH|x l1 l2 Hsub IH].
  - constructor.
  - apply StronglySorted_inv in Hl2 as [Hl2 Hx]. constructor; [by apply IH|].
    rewrite Forall_forall in Hx |- *. intros y Hy. apply Hx.
    by apply (sublist_subseteq _ _ Hsub).
  - apply StronglySorted_inv in Hl2 as [Hl2 _]. by apply IH.
Qed.

Lemma js_sort_sorted (l : list A) : descending key l → js_sort cmp l = l.
Proof.
  induction l as [|x l IH]; [done|]. intros Hl.
  apply StronglySorted_inv in Hl as [Hl Hx].
  rewrite js_sort_cons, IH by done.
  destruct l as [|y l]; [done|]. simpl.
  apply Forall_cons in Hx as [Hy _]. rewrite cmp_key.
  by rewrite (proj2 (Z.leb_le _ _)) by lia.
Qed.

End SortedFacts.

Section Shape.
Context {Payload : Type}.
Implicit Types (st : Emitter Payload) (x : StoredListener).

Lemma tidy_ext st st' :
  listeners st' = listeners st → wildcardListeners st' = wildcardListeners st →
  tidy st → tidy st'.
Proof.
  intros Hl Hw [H1 H2 H3 H4 H5].
  split; unfold exact_of; rewrite ?Hl, ?Hw; done.
Qed.

Lemma tidy_empty st :
  listeners st = ∅ → wildcardListeners st = [] → tidy st.
Proof.
  intros Hl Hw. split; unfold exact_of; rewrite ?Hl, ?Hw.
  - intros e l. by rewrite lookup_empty.
  - intros e l. by rewrite lookup_empty.
  - intros e. rewrite lookup_empty. constructor.
  - constructor.
  - constructor.
Qed.

Lemma on_listeners event listener options st :
  listeners (on event listener options st).2
  = if includes_star event then listeners st
    else <[event := js_sort by_priority
                      (exact_of event st ++ [new_entry listener options st])]>
           (listeners st).
Proof.
  unfold on, exact_of, new_entry. simpl.
  destruct (includes_star event); [done|]. simpl.
  by destruct (_ && _).
Qed.

Lemma on_tidy event listener options st :
  tidy st → tidy (on event listener options st).2.
Proof.
  intros [H1 H2 H3 H4 H5]. split.
  - intros e l. rewrite on_listeners.
    destruct (includes_star event); [apply H1|].
    intros [ [ <- <- ] | [_ ?] ]%lookup_insert_Some; [|by eapply H1].
    intros Heq. apply (f_equal length) in Heq.
    rewrite length_js_sort, length_app in Heq. simpl in Heq. lia.
  - intros e l. rewrite on_listeners.
    destruct (includes_star event) eqn:Hstar; [apply H2|].
    intros [ [ <- <- ] | [_ ?] ]%lookup_insert_Some; [done|by eapply H2].
  - intros e. rewrite on_exact_of.
    destruct (includes_star event); [apply H3|].
    destruct (decide (e = event)); [|apply H3].
    apply (js_sort_descending priority by_priority). apply by_priority_key.
  - rewrite on_wildcardListeners.
    destruct (includes_star event) eqn:Hstar; [|done].
    rewrite Forall_forall. intros w Hw.
    apply elem_of_js_sort in Hw.
    apply elem_of_app in Hw as [Hw| ->%list_elem_of_singleton]; [|done].
    by apply (proj1 (Forall_forall _ _) H4).
  - rewrite on_wildcardListeners.
    destruct (includes_star event); [|done].
    by apply (js_sort_descending (priority ∘ stored) by_stored_priority).
Qed.

Lemma off_listeners_lookup sub st e l :
  listeners (off sub st) !! e = Some l →
  ∃ l0, listeners st !! e = Some l0 ∧ (l = l0 ∨ l ≠ []).
Proof.
  unfold off. destruct (sub_isWild sub); [by eauto|].
  destruct (listeners st !! sub_event sub) as [l0|] eqn:Hl0; [|by eauto].
  simpl. case_bool_decide as Hlen; simpl.
  - intros [? ?]%lookup_delete_Some. eauto.
  - intros [ [ <- <- ] | [_ ?] ]%lookup_insert_Some; [|by eauto].
    exists l0. split; [done|]. right. intros Heq. by rewrite Heq in Hlen.
Qed.

Lemma shrinks_tidy_lists st st' :
  shrinks st st' → tidy st →
  (∀ e, descending priority (exact_of e st')) ∧
  Forall (λ w, includes_star (pattern w) = true) (wildcardListeners st') ∧
  descending (priority ∘ stored) (wildcardListeners st').
Proof.
  intros (_ & Hex & Hw) [H1 H2 H3 H4 H5]. split; [|split].
  - intros e. exact (descending_sublist priority _ _ (Hex e) (H3 e)).
  - rewrite Forall_forall in H4 |- *. intros w Hin. apply H4.
    by apply (sublist_subseteq _ _ Hw).
  - exact (descending_sublist (priority ∘ stored) _ _ Hw H5).
Qed.

(** An operation that only removes entries, and that leaves no empty
    list behind where it changed one, keeps the shape. *)
Lemma shrinks_tidy st st' :
  shrinks st st' →
  (∀ e l, listeners st' !! e = Some l →
          ∃ l0, listeners st !! e = Some l0 ∧ (l = l0 ∨ l ≠ [])) →
  tidy st → tidy st'.
Proof.
  intros Hsh Hlook Hst.
  destruct (shrinks_tidy_lists st st' Hsh Hst) as (Hex & Hpat & Hw).
  destruct Hst as [H1 H2 H3 H4 H5]. split; try done.
  - intros e l (l0 & Hl0 & [->|?])%Hlook; [by eapply H1|done].
  - intros e l (l0 & Hl0 & _)%Hlook. by eapply H2.
Qed.

Lemma off_tidy sub st : tidy st → tidy (off sub st).
Proof.
  apply shrinks_tidy; [apply off_shrinks|apply off_listeners_lookup].
Qed.

Lemma pruneOnce_listeners_lookup event fired st e l :
  listeners (pruneOnce event fired st) !! e = Some l →
  ∃ l0, listeners st !! e = Some l0 ∧ (l = l0 ∨ l ≠ []).
Proof.
  unfold pruneOnce. case_bool_decide; [by eauto|]. simpl.
  destruct (listeners st !! event) as [l0|] eqn:Hl0; [|by eauto].
  case_bool_decide as Hlen; simpl.
  - intros [? ?]%lookup_delete_Some. eauto.
  - intros [ [ <- <- ] | [_ ?] ]%lookup_insert_Some; [|by eauto].
    exists l0. split; [done|]. right. intros Heq. by rewrite Heq in Hlen.
Qed.

Lemma pruneOnce_tidy event fired st : tidy st → tidy (pruneOnce event fired st).
Proof.
  apply shrinks_tidy; [apply pruneOnce_shrinks|apply pruneOnce_listeners_lookup].
Qed.

Lemma clear_tidy event st : tidy st → tidy (clear event st).
Proof.
  apply shrinks_tidy; [apply clear_shrinks|].
  intros e l. destruct event as [ev|]; simpl.
  - intros [? ?]%lookup_delete_Some. eauto.
  - by rewrite lookup_empty.
Qed.

Lemma dispose_tidy st : tidy (dispose st).
Proof. by apply tidy_empty. Qed.

End Shape.

Section ShapeRuns.
Context {Payload Err : Type}.
Variable apply_fn : FnId → Payload → Emitter Payload → Completion Payload Err unit.
Implicit Types (st : Emitter Payload) (op : Op Payload).

Lemma emit_tidy event p st :
  tidy_preserving apply_fn → tidy st →
  tidy (state_of (emit apply_fn event p st).2).
Proof.
  intros Hf Hst. unfold emit. destruct (paused st).
  - simpl. destruct (_ <? _); [|done]. by apply (tidy_ext st).
  - apply (dispatch_preserves apply_fn tidy); [done| |done].
    intros. by apply pruneOnce_tidy.
Qed.

Lemma resume_tidy st :
  tidy_preserving apply_fn → tidy st →
  tidy (state_of (resume apply_fn st).2).
Proof.
  intros Hf Hst. unfold resume.
  apply (replay_preserves apply_fn tidy); [done| |by apply (tidy_ext st)].
  intros. by apply pruneOnce_tidy.
Qed.

Lemma run_op_tidy op st :
  tidy_preserving apply_fn → tidy st → tidy (run_op apply_fn op st).
Proof.
  intros Hf Hst. destruct op; unfold run_op.
  - by apply (tidy_ext st).
  - by apply (tidy_ext st).
  - by apply on_tidy.
  - by apply on_tidy.
  - by apply off_tidy.
  - by apply emit_tidy.
  - by apply (tidy_ext st).
  - by apply resume_tidy.
  - by apply clear_tidy.
  - apply dispose_tidy.
Qed.

Lemma run_ops_tidy ops : ∀ st,
  tidy_preserving apply_fn → tidy st → tidy (run_ops apply_fn ops st).
Proof.
  induction ops as [|op ops IH]; intros st Hf Hst; [done|].
  rewrite run_ops_cons. apply IH; [done|]. by apply run_op_tidy.
Qed.

End ShapeRuns.

Section MoreSortFacts.
Context {A : Type} (key : A → Z) (cmp : A → A → Z).
Hypothesis cmp_key : ∀ a b, cmp a b = key b - key a.

Lemma sort_insert_front x (l : list A) :
  Forall (λ b, key b ≤ key x) l → sort_insert cmp x l = x :: l.
Proof.
  destruct l as [|y l]; [done|]. intros [Hy _]%Forall_cons. simpl.
  rewrite cmp_key. by rewrite (proj2 (Z.leb_le _ _)) by lia.
Qed.

(** Pushing an element on a sorted array and sorting puts it in
    somewhere and moves nothing else. *)
Lemma js_sort_push x (l : list A) :
  descending key l →
  ∃ l1 l2, l = l1 ++ l2 ∧ js_sort cmp (l ++ [x]) = l1 ++ x :: l2.
Proof.
  induction l as [|y l IH]; intros Hl.
  - by exists [], [].
  - apply StronglySorted_inv in Hl as [Hl Hy].
    destruct (IH Hl) as (l1 & l2 & -> & Hsort).
    change ((y :: l1 ++ l2) ++ [x]) with (y :: (l1 ++ l2) ++ [x]).
    rewrite js_sort_cons, Hsort.
    apply Forall_app in Hy as [Hy1 Hy2].
    destruct l1 as [|z l1]; simpl.
    + rewrite cmp_key. destruct (key x - key y <=? 0) eqn:Hxy.
      * by exists [y], l2.
      * exists [], (y :: l2). split; [done|]. simpl.
        by rewrite (sort_insert_front y l2).
    + apply Forall_cons in Hy1 as [Hz Hy1]. rewrite cmp_key.
      rewrite (proj2 (Z.leb_le _ _)) by lia.
      by exists (y :: z :: l1), l2.
Qed.

End MoreSortFacts.

Section MoreSpliceFacts.
Context {A : Type}.
Implicit Types (P : A → bool) (l : list A).

Lemma splice_found_absent P l :
  (∀ y, y ∈ l → P y = false) → splice_found P l = l.
Proof.
  induction l as [|y l IH]; intros HP; [done|].
  rewrite splice_found_cons, HP by left. f_equal. apply IH.
  intros z Hz. apply HP. by right.
Qed.

Lemma splice_found_middle P l1 x l2 :
  (∀ y, y ∈ l1 → P y = false) → P x = true →
  splice_found P (l1 ++ x :: l2) = l1 ++ l2.
Proof.
  induction l1 as [|y l1 IH]; intros HP Hx; simpl.
  - by rewrite splice_found_cons, Hx.
  - rewrite splice_found_cons, HP by left. f_equal. apply IH; [|done].
    intros z Hz. apply HP. by right.
Qed.

End MoreSpliceFacts.

Lemma descending_fmap {A B} (f : A → B) (key : B → Z) (l : list A) :
  descending (key ∘ f) l → descending key (f <$> l).
Proof.
  induction 1 as [|x l Hl IH Hx]; [constructor|]. simpl.
  constructor; [done|]. by apply Forall_fmap.
Qed.

Lemma filter_all {A} (P : A → Prop) `{∀ x, Decision (P x)} (l : list A) :
  Forall P l → filter P l = l.
Proof.
  induction 1 as [|x l Hx Hl IH]; [done|].
  by rewrite filter_cons_True, IH.
Qed.

(** ** Handles and counts *)

Section Handles.
Context {Payload : Type}.
Implicit Types (st : Emitter Payload) (x : StoredListener).

Lemma listenerCount_exact_of event st :
  listenerCount event st = length (exact_of event st).
Proof. unfold listenerCount, exact_of. by destruct (listeners st !! event). Qed.

Lemma set_listeners_id st : set_listeners (listeners st) st = st.
Proof. by destruct st. Qed.

Lemma set_wildcardListeners_id st :
  set_wildcardListeners (wildcardListeners st) st = st.
Proof. by destruct st. Qed.

Lemma set_buffer_id st : set_buffer (buffer st) st = st.
Proof. by destruct st. Qed.

Lemma tidy_lookup event st :
  tidy st →
  listeners st !! event
  = if bool_decide (exact_of event st = []) then None
    else Some (exact_of event st).
Proof.
  intros Hst. unfold exact_of.
  destruct (listeners st !! event) as [l|] eqn:Hl; simpl; [|done].
  by rewrite bool_decide_eq_false_2 by by eapply tidy_nonempty.
Qed.

Lemma new_entry_fresh listener options st :
  consistent st → ¬ registered (new_entry listener options st) st.
Proof. intros [_ Hal] Hreg%Hal. simpl in Hreg. lia. Qed.

(** When [off] finds nothing to remove and no empty list to delete, the
    state stays as it is. *)
Lemma off_noop sub st :
  (sub_isWild sub = true → sub_stored sub ∉ stored <$> wildcardListeners st) →
  (sub_isWild sub = false →
   ∀ l, listeners st !! sub_event sub = Some l →
        (sub_stored sub ∉ l) ∧ l ≠ []) →
  off sub st = st.
Proof.
  intros Hwild Hexact. unfold off. destruct (sub_isWild sub).
  - rewrite splice_found_absent; [apply set_wildcardListeners_id|].
    intros w Hw. apply bool_decide_eq_false_2. intros Heq. apply Hwild; [done|].
    rewrite <- Heq. by apply list_elem_of_fmap_2.
  - destruct (listeners st !! sub_event sub) as [l|] eqn:Hl; [|done]. simpl.
    destruct (Hexact eq_refl l eq_refl) as [Hx Hne].
    rewrite splice_found_absent
      by (intros y Hy; apply bool_decide_eq_false_2; by intros ->).
    rewrite bool_decide_eq_false_2
      by (intros Hlen; by apply Hne, nil_length_inv).
    rewrite insert_id by done. apply set_listeners_id.
Qed.

Lemma on_new_entry_place event listener options st e :
  consistent st →
  let x := new_entry listener options st in
  let st1 := (on event listener options st).2 in
  (x ∈ exact_of e st1 → includes_star event = false ∧ e = event) ∧
  (x ∈ stored <$> wildcardListeners st1 → includes_star event = true).
Proof.
  intros Hcons x st1. pose proof (new_entry_fresh listener options st Hcons) as Hfresh.
  subst st1. rewrite on_exact_of, on_wildcardListeners.
  destruct (includes_star event); split; try done.
  - intros Hin. destruct Hfresh. left. by exists e.
  - destruct (decide (e = event)) as [->|]; [done|].
    intros Hin. destruct Hfresh. left. by exists e.
  - intros Hin. destruct Hfresh. by right.
Qed.

Lemma off_removes_exactly event listener options st0 st' x :
  consistent st0 →
  reached (on event listener options st0).2 st' →
  registered x (off (on event listener options st0).1 st')
  ↔ registered x st' ∧ x ≠ sub_stored (on event listener options st0).1.
Proof.
  intros Hcons [[Hwf _] (_ & Hex & Hwild)].
  rewrite on_handle. simpl.
  set (x0 := new_entry listener options st0) in *.
  set (sub := mkSubscription (includes_star event) event x0).
  assert (Hid : (ident x0 < allocated (on event listener options st0).2)%nat).
  { rewrite on_allocated. simpl. lia. }
  assert (Hplace_e : ∀ e, x0 ∈ exact_of e st' →
            includes_star event = false ∧ e = event).
  { intros e Hin. apply (on_new_entry_place event listener options st0 e Hcons).
    by apply Hex. }
  assert (Hplace_w : x0 ∈ stored <$> wildcardListeners st' →
            includes_star event = true).
  { intros Hin. apply (on_new_entry_place event listener options st0 event Hcons).
    by apply Hwild. }
  unfold registered. setoid_rewrite off_exact_of. rewrite off_wildcardListeners.
  simpl. destruct (includes_star event) eqn:Hstar.
  - split.
    + intros [Hin|Hin].
      * split; [by left|]. intros ->. destruct Hin as [e Hin].
        by destruct (Hplace_e e Hin).
      * split.
        -- right. revert Hin. apply sublist_subseteq, fmap_sublist,
             splice_found_sublist.
        -- intros ->. revert Hin.
           apply (splice_found_removes stored x0 _ (wf_wild _ Hwf)).
    + intros [[Hin|Hin] Hne]; [by left|right].
      apply list_elem_of_fmap in Hin as (w & -> & Hw).
      apply list_elem_of_fmap_2, splice_found_keeps; [|done].
      by apply bool_decide_eq_false_2.
  - split.
    + intros [[e Hin]|Hin].
      * destruct (decide (e = event)) as [->|Hne].
        -- split.
           ++ left. exists event. revert Hin.
              apply sublist_subseteq, splice_found_sublist.
           ++ intros ->. revert Hin.
              pose proof (splice_found_removes id x0 (exact_of event st')) as H.
              rewrite !list_fmap_id in H. apply H, (wf_exact _ Hwf).
        -- split; [left; by exists e|]. intros ->.
           by destruct (Hplace_e e Hin).
      * split; [by right|]. intros ->. by specialize (Hplace_w Hin).
    + intros [[[e Hin]|Hin] Hne]; [left|by right].
      exists e. destruct (decide (e = event)) as [->|]; [|done].
      apply splice_found_keeps; [|done]. by apply bool_decide_eq_false_2.
Qed.

End Handles.

Section Reached.
Context {Payload Err : Type}.
Variable apply_fn : FnId → Payload → Emitter Payload → Completion Payload Err unit.
Implicit Types (st : Emitter Payload) (op : Op Payload).

Lemma shrinks_reached st st' : consistent st → shrinks st st' → reached st st'.
Proof.
  intros Hst Hsh. split; [by eapply shrinks_consistent|by apply shrinks_evolves].
Qed.

Lemma run_op_reached op st :
  disciplined apply_fn → consistent st → reached st (run_op apply_fn op st).
Proof.
  intros Hf Hst. destruct op; unfold run_op.
  - by apply shrinks_reached, same_registry_shrinks.
  - by apply shrinks_reached, same_registry_shrinks.
  - split; [by apply on_consistent|apply on_evolves].
  - split; [by apply on_consistent|apply on_evolves].
  - apply shrinks_reached, off_shrinks; done.
  - by apply emit_disciplined.
  - by apply shrinks_reached, same_registry_shrinks.
  - by apply resume_disciplined.
  - apply shrinks_reached, clear_shrinks; done.
  - apply shrinks_reached, dispose_shrinks; done.
Qed.

Lemma run_ops_reached ops : ∀ st,
  disciplined apply_fn → consistent st → reached st (run_ops apply_fn ops st).
Proof.
  induction ops as [|op ops IH]; intros st Hf Hst.
  - split; [done|apply evolves_refl].
  - rewrite run_ops_cons.
    destruct (run_op_reached op st Hf Hst) as [Hst1 Hev1].
    destruct (IH _ Hf Hst1) as [Hst2 Hev2].
    split; [done|by eapply evolves_trans].
Qed.

End Reached.

(** ** Publishing, pausing and resuming *)

Section Publishing.
Context {Payload Err : Type}.
Variable apply_fn : FnId → Payload → Emitter Payload → Completion Payload Err unit.
Implicit Types (st : Emitter Payload) (x : StoredListener) (p : Payload).

Lemma invoke_all_calls s ls p st :
  (invoke_all apply_fn (s :: ls) p st).1 ≠ [].
Proof.
  rewrite invoke_all_cons. by destruct (apply_fn (fn s) p st).
Qed.

Lemma collect_empty event st :
  listeners st = ∅ → wildcardListeners st = [] → collectListeners event st = [].
Proof.
  intros Hl Hw. unfold collectListeners. by rewrite Hl, Hw, lookup_empty.
Qed.

Lemma emit_empty event p st :
  listeners st = ∅ → wildcardListeners st = [] → paused st = false →
  emit apply_fn event p st = ([], Normal false st).
Proof.
  intros Hl Hw Hp. unfold emit. rewrite Hp, dispatch_unfold.
  by rewrite collect_empty.
Qed.

Lemma publish_all_cons ep pubs st :
  publish_all apply_fn (ep :: pubs) st
  = publish_all apply_fn pubs (state_of (emit apply_fn ep.1 ep.2 st).2).
Proof. done. Qed.

Lemma publish_all_paused pubs : ∀ st,
  paused st = true →
  publish_all apply_fn pubs st
  = set_buffer
      (buffer st
       ++ take (Z.to_nat (maxBufferSize st - Z.of_nat (length (buffer st)))) pubs)
      st.
Proof.
  induction pubs as [|[event p] pubs IH]; intros st Hp.
  - rewrite take_nil, app_nil_r. symmetry. by destruct st.
  - rewrite publish_all_cons. cbn [fst snd].
    destruct (Z.ltb_spec (Z.of_nat (length (buffer st))) (maxBufferSize st))
      as [Hroom|Hfull].
    + rewrite emit_paused_room by done. cbn [snd state_of].
      rewrite IH by by destruct st.
      destruct st as [m w ml pa buf mb c a]. unfold set_buffer. simpl in *.
      f_equal. rewrite length_app. simpl.
      replace (Z.to_nat (mb - Z.of_nat (length buf)))
        with (S (Z.to_nat (mb - Z.of_nat (length buf + 1)))) by lia.
      by rewrite <- app_assoc.
    + rewrite emit_paused_full by done. cbn [snd state_of].
      rewrite IH by done.
      by replace (Z.to_nat (maxBufferSize st - Z.of_nat (length (buffer st))))
        with O by lia.
Qed.

Lemma resume_after_pause pubs st :
  paused st = false → buffer st = [] →
  Z.of_nat (length pubs) ≤ maxBufferSize st →
  resume apply_fn (publish_all apply_fn pubs (pause st))
  = replay apply_fn pubs st.
Proof.
  intros Hp Hb Hlen. rewrite publish_all_paused by done.
  destruct st as [m w ml pa buf mb c a]. simpl in *. subst pa buf.
  unfold resume, set_buffer, set_paused, pause. simpl.
  rewrite take_ge by lia. done.
Qed.

Lemma replay_inert_state pubs : ∀ st,
  inert apply_fn → paused st = false →
  state_of (replay apply_fn pubs st).2 = publish_all apply_fn pubs st.
Proof.
  induction pubs as [|[event p] pubs IH]; intros st Hf Hp; [done|].
  rewrite replay_cons, publish_all_cons. cbn [fst snd].
  unfold emit. rewrite Hp.
  destruct (dispatch_inert_eq apply_fn event p st Hf) as [b ->].
  cbn [snd state_of]. apply IH; [done|].
  by rewrite (proj1 (proj2 (proj2 (pruneOnce_other_fields _ _ st)))).
Qed.



Lemma resume_idle st :
  buffer st = [] → paused st = false →
  resume apply_fn st = ([], Normal tt st).
Proof.
  intros Hb Hp. destruct st as [m w ml pa buf mb c a]. simpl in *. by subst.
Qed.

End Publishing.

(** ** More on the scenarios *)

(** Listeners that change nothing keep whatever holds of the state. *)
Lemma inert_tidy_preserving {Payload Err}
    (apply_fn : FnId → Payload → Emitter Payload → Completion Payload Err unit) :
  inert apply_fn → tidy_preserving apply_fn.
Proof. intros Hf f p st Hst. by rewrite Hf. Qed.

Lemma exact_and_once_wildcard_tidy : tidy exact_and_once_wildcard.
Proof. unfold exact_and_once_wildcard, once_. by do 2 apply on_tidy; apply tidy_empty. Qed.

Lemma changes_while_paused_tidy : tidy changes_while_paused.
Proof.
  apply run_ops_tidy; [apply inert_tidy_preserving, quiet_fn_inert|].
  by apply tidy_empty.
Qed.

(** ** Once entries and publishes started by listeners *)

(** A once entry and the loop of one publish.  Take a once entry that
    would be collected for an event, in consistent registries, and a
    publish of the event that completes without a thrown error, the
    listeners doing to the subscriptions whatever the operations of the
    emitter allow.  Then the publish returns true, its own loop calls
    the entry exactly once, the entry is held by neither registry
    afterwards, and the loop of no later publish calls it.  The calls
    counted are those of the loop: what a publish started by a listener
    calls is not among them (see [Traced]). *)
Lemma once_entry_called_once_by_the_loop
    {Payload Err} (apply_fn : FnId → Payload → Emitter Payload
                              → Completion Payload Err unit)
    st event payload x calls b st' :
  consistent st →
  disciplined apply_fn →
  paused st = false →
  once x = true →
  x ∈ collectListeners event st →
  emit apply_fn event payload st = (calls, Normal b st') →
  b = true ∧
  received x calls = [payload] ∧
  ¬ registered x st' ∧
  ∀ event' payload', received x (emit apply_fn event' payload' st').1 = [].
Proof.
  intros Hcons Hd Hp Hx Hin Hemit.
  pose proof Hcons as [Hwf Hfresh].
  unfold emit in Hemit. rewrite Hp, dispatch_unfold in Hemit.
  pose proof (NoDup_collectListeners event st Hwf) as Hnd.
  pose proof (λ e, collected_key x event st e Hwf Hin) as Hkey.
  pose proof (Hfresh x (collected_registered x event st Hin)) as Hold.
  destruct (collectListeners event st) as [|s ls] eqn:Hc;
    [by apply elem_of_nil in Hin|].
  pose proof (invoke_all_normal apply_fn (s :: ls) payload st) as Hcalls.
  pose proof (invoke_all_disciplined apply_fn (s :: ls) payload st Hd Hcons)
    as Hreach.
  destruct (invoke_all apply_fn (s :: ls) payload st) as [calls' [v s1|e s1]];
    [|done].
  simpl in Hreach. injection Hemit as <- <- <-.
  assert (Hcalls' : calls' = (., payload) <$> s :: ls)
    by exact (Hcalls v s1 eq_refl).
  rewrite Hcalls'.
  destruct Hreach as [[Hwf1 _] (_ & Hexact & _)].
  assert (Hgone : ¬ registered x (pruneOnce event (s :: ls) s1)).
  { apply pruneOnce_removes_fired; [done| |].
    - by apply list_elem_of_filter.
    - intros e He. apply Hkey. by apply Hexact. }
  split; [done|]. split; [by apply received_called|]. split; [done|].
  intros event' payload'. unfold emit.
  destruct (paused (pruneOnce event (s :: ls) s1)); [done|].
  apply received_none. intros q Hq. apply Hgone.
  apply (collected_registered x event').
  by apply (dispatch_calls_collected apply_fn event' payload' _ x q).
Qed.

Section TracedFacts.
Context {Payload Err : Type}.
Implicit Types (st : Emitter Payload) (p : Payload).
Implicit Types
  (env : FnId → Payload → Emitter Payload
         → list (StoredListener * Payload) * Completion Payload Err unit).

Lemma traced_invoke_all_cons env s rest p st :
  Traced.invoke_all env (s :: rest) p st
  = match env (fn s) p st with
    | (inner, Normal _ st') =>
        ((s, p) :: inner ++ (Traced.invoke_all env rest p st').1,
         (Traced.invoke_all env rest p st').2)
    | (inner, Throw e st') => ((s, p) :: inner, Throw e st')
    end.
Proof.
  simpl. destruct (env (fn s) p st) as [inner [v st'|e st']]; [|done].
  by destruct (Traced.invoke_all env rest p st').
Qed.

Lemma traced_dispatch_unfold env event p st :
  Traced.dispatch env event p st
  = match collectListeners event st with
    | [] => ([], Normal false st)
    | s :: ls =>
        match Traced.invoke_all env (s :: ls) p st with
        | (calls, Normal _ st') =>
            (calls, Normal true (pruneOnce event (s :: ls) st'))
        | (calls, Throw e st') => (calls, Throw e st')
        end
    end.
Proof.
  unfold Traced.dispatch. by destruct (collectListeners event st).
Qed.

(** Forgetting the nested calls: the completion and the state are those
    of [invoke_all], [dispatch] and [emit] with the effects of the
    listeners, and the calls of the loop itself are the same. *)
Lemma traced_invoke_all_effect env ls p : ∀ st,
  (Traced.invoke_all env ls p st).2 = (invoke_all (effect_of env) ls p st).2.
Proof.
  induction ls as [|s ls IH]; intros st; [done|].
  rewrite traced_invoke_all_cons, invoke_all_cons. unfold effect_of at 1.
  destruct (env (fn s) p st) as [inner [v st'|e st']]; [|done]. apply IH.
Qed.

Lemma traced_dispatch_effect env event p st :
  (Traced.dispatch env event p st).2 = (dispatch (effect_of env) event p st).2.
Proof.
  rewrite traced_dispatch_unfold, dispatch_unfold.
  destruct (collectListeners event st) as [|s ls]; [done|].
  pose proof (traced_invoke_all_effect env (s :: ls) p st) as H.
  destruct (Traced.invoke_all env (s :: ls) p st) as [c1 r1],
           (invoke_all (effect_of env) (s :: ls) p st) as [c2 r2].
  simpl in H. subst r2. by destruct r1.
Qed.

Lemma traced_emit_effect env event p st :
  (Traced.emit env event p st).2 = (emit (effect_of env) event p st).2.
Proof.
  unfold Traced.emit, emit. destruct (paused st); [done|].
  apply traced_dispatch_effect.
Qed.

(** With listeners that start no publish the trace is the list of calls
    of the loop. *)
Lemma traced_invoke_all_flat env ls p : ∀ st,
  (∀ f q s, (env f q s).1 = []) →
  Traced.invoke_all env ls p st = invoke_all (effect_of env) ls p st.
Proof.
  intros st Hflat. revert st.
  induction ls as [|s ls IH]; intros st; [done|].
  rewrite traced_invoke_all_cons, invoke_all_cons. unfold effect_of at 1.
  pose proof (Hflat (fn s) p st) as Hin.
  destruct (env (fn s) p st) as [inner [v st'|e st']]; simpl in Hin; subst inner;
    [|done].
  by rewrite IH.
Qed.

Lemma traced_emit_flat env event p st :
  (∀ f q s, (env f q s).1 = []) →
  Traced.emit env event p st = emit (effect_of env) event p st.
Proof.
  intros Hflat. unfold Traced.emit, emit. destruct (paused st); [done|].
  rewrite traced_dispatch_unfold, dispatch_unfold.
  destruct (collectListeners event st) as [|s ls]; [done|].
  by rewrite traced_invoke_all_flat.
Qed.

End TracedFacts.

Lemma reentrant_fn_other depth f p st :
  f ≠ 0%nat → reentrant_fn depth f p st = ([], Normal tt st).
Proof.
  intros Hf. destruct depth; simpl; by rewrite bool_decide_eq_false_2.
Qed.

Lemma reentrant_fn_publisher depth p st :
  reentrant_fn (S depth) 0%nat p st
  = Traced.publishing (reentrant_fn depth) "y" 8 st.
Proof. done. Qed.

(** The same with every call counted, for an entry that no publish
    started by a listener calls. *)
Lemma traced_invoke_all_received {Payload Err}
    (env : FnId → Payload → Emitter Payload
           → list (StoredListener * Payload) * Completion Payload Err unit)
    x ls p :
  (∀ f q s pl, (x, pl) ∉ (env f q s).1) →
  ∀ st, received x (Traced.invoke_all env ls p st).1
        = received x (invoke_all (effect_of env) ls p st).1.
Proof.
  intros Hx. induction ls as [|s ls IH]; intros st; [done|].
  rewrite traced_invoke_all_cons, invoke_all_cons. unfold effect_of at 1.
  pose proof (received_none x (env (fn s) p st).1 (λ pl, Hx _ _ _ pl)) as Hin.
  destruct (env (fn s) p st) as [inner [v st'|e st']]; cbn [fst snd] in *.
  - change ((s, p) :: inner ++ (Traced.invoke_all env ls p st').1)
      with ([(s, p)] ++ inner ++ (Traced.invoke_all env ls p st').1).
    change ((s, p) :: (invoke_all (effect_of env) ls p st').1)
      with ([(s, p)] ++ (invoke_all (effect_of env) ls p st').1).
    by rewrite !received_app, Hin, IH.
  - change ((s, p) :: inner) with ([(s, p)] ++ inner).
    by rewrite received_app, Hin, app_nil_r.
Qed.

Lemma traced_emit_received {Payload Err}
    (env : FnId → Payload → Emitter Payload
           → list (StoredListener * Payload) * Completion Payload Err unit)
    x event p st :
  (∀ f q s pl, (x, pl) ∉ (env f q s).1) →
  received x (Traced.emit env event p st).1
  = received x (emit (effect_of env) event p st).1.
Proof.
  intros Hx. unfold Traced.emit, emit. destruct (paused st); [done|].
  rewrite traced_dispatch_unfold, dispatch_unfold.
  destruct (collectListeners event st) as [|s ls]; [done|].
  pose proof (traced_invoke_all_received env x (s :: ls) p Hx st) as Hrec.
  pose proof (traced_invoke_all_effect env (s :: ls) p st) as Heff.
  destruct (Traced.invoke_all env (s :: ls) p st) as [c1 r1],
           (invoke_all (effect_of env) (s :: ls) p st) as [c2 r2].
  cbn [fst snd] in *. subst r2. by destruct r1.
Qed.

Lemma once_entry_called_once_unless_reentrant {Payload Err}
    (env : FnId → Payload → Emitter Payload
           → list (StoredListener * Payload) * Completion Payload Err unit)
    st event payload x trace b st' :
  consistent st →
  disciplined (effect_of env) →
  (∀ f q s pl, (x, pl) ∉ (env f q s).1) →
  paused st = false →
  once x = true →
  x ∈ collectListeners event st →
  Traced.emit env event payload st = (trace, Normal b st') →
  b = true ∧
  received x trace = [payload] ∧
  ¬ registered x st' ∧
  ∀ event' payload', received x (Traced.emit env event' payload' st').1 = [].
Proof.
  intros Hcons Hd Hx Hp Honce Hin Hemit.
  pose proof (traced_emit_effect env event payload st) as Heff.
  pose proof (traced_emit_received env x event payload st Hx) as Hrec.
  rewrite Hemit in Heff, Hrec. cbn [fst snd] in Heff, Hrec.
  destruct (emit (effect_of env) event payload st) as [calls c] eqn:Hold.
  cbn [fst snd] in Heff, Hrec. subst c.
  destruct (once_entry_called_once_by_the_loop (effect_of env) st event payload
              x calls b st' Hcons Hd Hp Honce Hin Hold)
    as (Hb & Hcalls & Hgone & Hlater).
  split; [done|]. split; [by rewrite Hrec|]. split; [done|].
  intros event' payload'. rewrite traced_emit_received by done. apply Hlater.
Qed.

Lemma registered_only_exact {Payload} (st : Emitter Payload) x key l :
  listeners st = <[key := l]> ∅ →
  wildcardListeners st = [] →
  registered x st → x ∈ l.
Proof.
  intros Hl Hw [[event Hin]|Hin].
  - unfold exact_of in Hin. rewrite Hl in Hin.
    destruct (decide (key = event)) as [->|Hne].
    + by rewrite lookup_insert_eq in Hin.
    + rewrite lookup_insert_ne, lookup_empty in Hin by done.
      by apply elem_of_nil in Hin.
  - rewrite Hw in Hin. by apply elem_of_nil in Hin.
Qed.

(** On [publisher_and_once] a publish of ["x"]: listener 0 is called and
    publishes ["y"], for which the once entry under ["*"] is called and
    pruned; the loop of the outer publish then calls it again. *)
Lemma publisher_and_once_trace depth :
  let A := mkStored 0%nat 0%nat false 0 in
  let O := mkStored 1%nat 1%nat true 0 in
  Traced.emit (reentrant_fn (S depth)) "x" 7 publisher_and_once
  = ([(A, 7); (O, 8); (O, 7)],
     Normal true (pruneOnce "x" [A; O] (pruneOnce "y" [O] publisher_and_once))).
Proof.
  intros A O.
  assert (Hp : paused publisher_and_once = false) by (vm_compute; reflexivity).
  assert (Hx : collectListeners "x" publisher_and_once = [A; O])
    by (vm_compute; reflexivity).
  assert (Hy : collectListeners "y" publisher_and_once = [O])
    by (vm_compute; reflexivity).
  unfold Traced.emit. rewrite Hp, traced_dispatch_unfold, Hx.
  rewrite traced_invoke_all_cons.
  change (fn A) with 0%nat. rewrite reentrant_fn_publisher.
  unfold Traced.publishing, Traced.emit. rewrite Hp, traced_dispatch_unfold, Hy.
  rewrite traced_invoke_all_cons.
  rewrite (reentrant_fn_other depth (fn O)) by done.
  cbn [Traced.invoke_all fst snd app].
  rewrite (reentrant_fn_other (S depth) (fn O)) by done.
  reflexivity.
Qed.

(** * The claims *)

(** C1: whatever is passed to the constructor, an [onError] sink
    included, the emitter built is the same, and a throwing listener
    ends the publish: with listeners 1, 2, 3 on ["ping"] of which the
    second throws, [emit] throws and the third listener is not called. *)
Theorem C1_constructor_drops_onError :
  ∀ options : option (EmitterOptions Z string),
    new_Emitter options = new_Emitter (Err:=string) None ∧
    let st := three_on_ping (0, 0, 0) (new_Emitter options) in
    emit middle_throws "ping" 7 st
    = ([(mkStored 0%nat 1%nat false 0, 7); (mkStored 1%nat 2%nat false 0, 7)],
       Throw "fail" st).
Proof. intros options. split; [done|]. vm_compute. done. Qed.

(** C2 (as stated, refuted): the pattern ["a:b"] has no wildcard token and
    matches the event ["a.b"], a different string. *)
Lemma C2_counterexample :
  wildcard_free "a:b" ∧ includes_star "a:b" = false ∧
  ¬ (matchWildcard "a:b" "a.b" = true ↔ "a:b" = "a.b").
Proof.
  split; [split; apply (bool_decide_unpack _); vm_compute; exact I|].
  split; [reflexivity|].
  intros [H _]. specialize (H eq_refl). discriminate H.
Qed.

(** C2 (amended): for a pattern without wildcard token, [matchWildcard]
    answers true exactly when pattern and event have the same segments,
    that is, when they are the same string once the two delimiters are
    identified; in particular a pattern matches itself. *)
Theorem C2_literal_pattern_matches_same_segments p e :
  wildcard_free p →
  (matchWildcard p e = true ↔ split p = split e) ∧
  (matchWildcard p e = true ↔ canon p = canon e) ∧
  matchWildcard p p = true.
Proof.
  intros Hp. rewrite !matchWildcard_literal by done.
  rewrite <- split_eq_canon, bool_decide_eq_true.
  split; [done|]. split; [done|]. by apply bool_decide_eq_true.
Qed.

(** C2 (amended) at the pattern ["user:login"] and the event
    ["user.login"]. *)
Lemma C2_literal_pattern_witness :
  wildcard_free "user:login" ∧
  ((matchWildcard "user:login" "user.login" = true
    ↔ split "user:login" = split "user.login") ∧
   (matchWildcard "user:login" "user.login" = true
    ↔ canon "user:login" = canon "user.login") ∧
   matchWildcard "user:login" "user:login" = true).
Proof.
  assert (H : wildcard_free "user:login")
    by (split; apply (bool_decide_unpack _); vm_compute; exact I).
  split; [exact H|].
  exact (C2_literal_pattern_matches_same_segments "user:login" "user.login" H).
Defined.

(** C3: at the input of the claim the code answers true: the pattern
    ["a:**"] matches the event ["a"], the [**] absorbing no segment,
    although the documentation of [matchWildcard] says one or more. *)
Theorem C3_trailing_double_star_matches_nothing :
  matchWildcard "a:**" "a" = true ∧
  matchWildcard "user:**" "user" = true ∧
  matchWildcard "a:**:b" "a:b" = true.
Proof. vm_compute. done. Qed.

(** C4: the list collected for an event is the exact-name list followed
    by the matching wildcard entries, sorted by descending priority with
    ties left in that order; a dispatch calls exactly this list in this
    order (a prefix of it when a listener throws); [on] keeps each
    registry list in descending priority with ties in subscription
    order; priorities 1, 10, 5 fire as 10, 5, 1. *)
Theorem C4_collected_in_priority_order :
  (∀ Payload (st : Emitter Payload) event,
     let source := exact_of event st ++ wild_matching event st in
     collectListeners event st ≡ₚ source ∧
     descending priority (collectListeners event st) ∧
     ∀ k, filter (λ s, priority s = k) (collectListeners event st)
          = filter (λ s, priority s = k) source) ∧
  (∀ Payload Err (apply_fn : FnId → Payload → Emitter Payload
                             → Completion Payload Err unit) st event payload,
     match dispatch apply_fn event payload st with
     | (calls, Normal _ _) =>
         calls = (., payload) <$> collectListeners event st
     | (calls, Throw _ _) =>
         ∃ n, calls = (., payload) <$> take n (collectListeners event st)
     end) ∧
  (∀ Payload (st : Emitter Payload) event listener options k,
     let st' := (on event listener options st).2 in
     let new := sub_stored (on event listener options st).1 in
     if includes_star event
     then filter (λ w, priority (stored w) = k) (wildcardListeners st')
          = filter (λ w, priority (stored w) = k)
                   (wildcardListeners st ++ [mkWild event new])
          ∧ descending (priority ∘ stored) (wildcardListeners st')
     else filter (λ s, priority s = k) (exact_of event st')
          = filter (λ s, priority s = k) (exact_of event st ++ [new])
          ∧ descending priority (exact_of event st')) ∧
  priority <$> (emit quiet_fn "ping" 7
                  (three_on_ping (1, 10, 5) (new_Emitter (Err:=string) None))).1.*1
  = [10; 5; 1] ∧
  fn <$> (emit quiet_fn "ping" 7
            (three_on_ping (5, 7, 5) (new_Emitter (Err:=string) None))).1.*1
  = [2; 1; 3]%nat.
Proof.
  split; [|split; [|split; [|split]]].
  - intros Payload st event. simpl. rewrite collectListeners_eq.
    split; [apply js_sort_perm|]. split.
    + by apply (js_sort_descending priority by_priority).
    + intros k. by apply (js_sort_stable priority by_priority).
  - intros. apply dispatch_snapshot.
  - intros. apply on_stable.
  - vm_compute. done.
  - vm_compute. done.
Qed.






(** C7 (as stated, refuted): three events are buffered under the default
    bound, then [setMaxBufferSize(2)] is called: the buffer holds 3
    entries and the bound is 2. *)
Lemma C7_counterexample :
  let st := run_ops quiet_fn
              [OpPause; OpEmit "a" 1; OpEmit "a" 2; OpEmit "a" 3;
               OpSetMaxBufferSize 2]
              (new_Emitter (Err:=string) None) in
  length (buffer st) = 3%nat ∧ maxBufferSize st = 2 ∧ ¬ bounded st.
Proof.
  split; [reflexivity|]. split; [reflexivity|].
  unfold bounded. vm_compute. intros H. apply H. reflexivity.
Qed.

(** C7 (amended): from a state in which the buffer respects its bound
    (the initial state does), after every sequence of public operations
    in which no call of [setMaxBufferSize], by the caller or by a
    listener, sets the bound below the number of events buffered at that
    moment, the buffer length does not exceed the bound, at the end and
    at every point before; and a publish made while paused with a full
    buffer calls no listener, returns false and leaves the state,
    console included, as it was. *)
Theorem C7_buffer_bound_and_silent_drop
    {Payload Err} (apply_fn : FnId → Payload → Emitter Payload
                              → Completion Payload Err unit)
    (options : option (EmitterOptions Payload Err)) st ops event payload :
  bound_preserving apply_fn →
  bounded st →
  admissible_run apply_fn ops st →
  let st' := run_ops apply_fn ops st in
  bounded (new_Emitter options) ∧
  (∀ k, bounded (run_ops apply_fn (take k ops) st)) ∧
  bounded st' ∧
  (paused st' = true →
   Z.of_nat (length (buffer st')) = maxBufferSize st' →
   emit apply_fn event payload st' = ([], Normal false st')).
Proof.
  intros Hf Hst Hops st'.
  split; [unfold bounded; simpl; lia|].
  split; [by apply run_ops_bounded|].
  split.
  - pose proof (run_ops_bounded apply_fn ops st Hf Hst Hops (length ops)) as H.
    by rewrite firstn_all in H.
  - intros Hp Hfull. apply emit_paused_full; [done|lia].
Qed.

(** C7 (amended) on [three_while_paused]: the third event is dropped,
    and so is a fourth. *)
Lemma C7_buffer_bound_witness :
  let st := new_Emitter (Err:=string) None in
  let st' := run_ops quiet_fn three_while_paused st in
  (bound_preserving quiet_fn ∧ bounded st ∧
   admissible_run quiet_fn three_while_paused st ∧
   paused st' = true ∧
   Z.of_nat (length (buffer st')) = maxBufferSize st') ∧
  (bounded (new_Emitter (Payload:=Z) (Err:=string) None) ∧
   (∀ k, bounded (run_ops quiet_fn (take k three_while_paused) st)) ∧
   bounded st' ∧
   emit quiet_fn "ping" 4 st' = ([], Normal false st')).
Proof.
  intros st st'.
  assert (H1 : bounded st) by (unfold bounded; simpl; lia).
  assert (H2 : admissible_run quiet_fn three_while_paused st)
    by (vm_compute; repeat split; discriminate).
  assert (H3 : paused st' = true) by reflexivity.
  assert (H4 : Z.of_nat (length (buffer st')) = maxBufferSize st')
    by reflexivity.
  pose proof (C7_buffer_bound_and_silent_drop quiet_fn None st
                three_while_paused "ping" 4
                quiet_fn_bound_preserving H1 H2) as (Ha & Hb & Hc & Hd).
  split.
  - split; [exact quiet_fn_bound_preserving|]. split; [exact H1|].
    split; [exact H2|]. split; [exact H3|exact H4].
  - split; [exact Ha|]. split; [exact Hb|]. split; [exact Hc|].
    exact (Hd H3 H4).
Defined.

(** C8: a once entry is called twice when a listener of the publish
    that calls it publishes a matching event itself.  On
    [publisher_and_once], listener 0 on ["x"] and the once entry of
    listener 1 under ["*"], a publish of ["x"] with listener 0
    publishing ["y"], for any depth of nesting allowed: the publish
    returns true without a thrown error; the entry is called by the
    publish of ["y"], which completes first and removes it, and then
    again by the loop of the publish of ["x"], which walks the list it
    collected before.  It receives 8 and then 7, although [once] is
    documented as a single firing. *)
Theorem C8_once_entry_fires_twice_when_reentrant :
  ∀ depth,
    let st := publisher_and_once in
    let publisher := mkStored 0%nat 0%nat false 0 in
    let entry := mkStored 1%nat 1%nat true 0 in
    let r := Traced.emit (reentrant_fn (S depth)) "x" 7 st in
    (paused st = false ∧ once entry = true ∧
     collectListeners "x" st = [publisher; entry] ∧
     collectListeners "y" st = [entry]) ∧
    r.1 = [(publisher, 7); (entry, 8); (entry, 7)] ∧
    received entry r.1 = [8; 7] ∧
    ∃ st', r.2 = Normal true st' ∧ ¬ registered entry st'.
Proof.
  intros depth st publisher entry r.
  split.
  { split; [vm_compute; reflexivity|]. split; [reflexivity|].
    split; vm_compute; reflexivity. }
  subst r st. rewrite (publisher_and_once_trace depth). cbn [fst snd].
  split; [done|]. split; [vm_compute; reflexivity|].
  eexists. split; [reflexivity|].
  intros Hreg.
  apply (registered_only_exact _ entry "x" [publisher]) in Hreg.
  - apply list_elem_of_singleton in Hreg. discriminate Hreg.
  - vm_compute. reflexivity.
  - vm_compute. reflexivity.
Qed.

(** C9: the calls of a dispatch are those of the list collected when it
    starts, whatever the listeners do to the registries meanwhile.  With
    listener 0 (ordered first) unsubscribing the entry of listener 1, the
    publish still calls both and the next one calls listener 0 alone;
    with listener 2 subscribing a new entry to the event being published,
    the publish calls listener 2 alone and the next one calls both. *)
Theorem C9_dispatch_walks_a_snapshot :
  (∀ Payload Err (apply_fn : FnId → Payload → Emitter Payload
                             → Completion Payload Err unit) st event payload,
     match dispatch apply_fn event payload st with
     | (calls, Normal _ _) =>
         calls = (., payload) <$> collectListeners event st
     | (calls, Throw _ _) =>
         ∃ n, calls = (., payload) <$> take n (collectListeners event st)
     end) ∧
  (let st := (on "job" 0%nat (mkOptions None (Some 5))
                (new_Emitter (Err:=string) None)).2 in
   let st := (on "job" 1%nat no_options st).2 in
   let first := emit meddling_fn "job" 7 st in
   let second := emit meddling_fn "job" 8 (state_of first.2) in
   fn <$> first.1.*1 = [0; 1]%nat ∧
   exact_of "job" (state_of first.2) = [mkStored 0%nat 0%nat false 5] ∧
   fn <$> second.1.*1 = [0]%nat) ∧
  (let st := (on "job" 2%nat (mkOptions None (Some 5))
                (new_Emitter (Err:=string) None)).2 in
   let first := emit meddling_fn "job" 7 st in
   let second := emit meddling_fn "job" 8 (state_of first.2) in
   fn <$> first.1.*1 = [2]%nat ∧
   collectListeners "job" (state_of first.2)
   = [mkStored 0%nat 2%nat false 5; mkStored 1%nat 1%nat false 0] ∧
   fn <$> second.1.*1 = [2; 1]%nat).
Proof.
  split; [|split].
  - intros. apply dispatch_snapshot.
  - vm_compute. done.
  - vm_compute. done.
Qed.

(** C10: with [maxBufferSize] at 0 and nothing buffered, a paused emitter
    drops every publish: each [emit] calls no listener, returns false and
    leaves the state as it was, so the buffer stays empty however many
    events are published, and the [resume] that follows calls no
    listener; once active, [emit] dispatches as usual. *)
Theorem C10_zero_bound_disables_buffering
    {Payload Err} (apply_fn : FnId → Payload → Emitter Payload
                              → Completion Payload Err unit)
    st (pubs : list (string * Payload)) event payload :
  maxBufferSize st = 0 →
  buffer st = [] →
  let paused_st := pause st in
  let after := publish_all apply_fn pubs paused_st in
  emit apply_fn event payload paused_st = ([], Normal false paused_st) ∧
  after = paused_st ∧
  buffer after = [] ∧
  resume apply_fn after = ([], Normal tt (set_buffer [] (set_paused false after))) ∧
  emit apply_fn event payload (state_of (resume apply_fn after).2)
  = dispatch apply_fn event payload (state_of (resume apply_fn after).2).
Proof.
  intros Hmax Hbuf paused_st after.
  assert (Hfull : maxBufferSize paused_st ≤ Z.of_nat (length (buffer paused_st))).
  { unfold paused_st, pause. simpl. rewrite Hmax, Hbuf. simpl. lia. }
  assert (Hafter : after = paused_st)
    by (by apply publish_all_paused_full).
  assert (Hres : resume apply_fn after
                 = ([], Normal tt (set_buffer [] (set_paused false after)))).
  { rewrite Hafter. unfold resume, paused_st, pause. simpl. by rewrite Hbuf. }
  split; [by apply emit_paused_full|].
  split; [done|].
  split; [by rewrite Hafter; unfold paused_st, pause; simpl|].
  split; [done|].
  rewrite Hres. done.
Qed.

(** C10 on an emitter with one listener and three publishes while
    paused. *)
Lemma C10_zero_bound_witness :
  let st := setMaxBufferSize 0
              (on "ping" 1%nat no_options (new_Emitter (Err:=string) None)).2 in
  let pubs := [("ping", 1); ("ping", 2); ("pong", 3)] in
  let after := publish_all quiet_fn pubs (pause st) in
  (maxBufferSize st = 0 ∧ buffer st = []) ∧
  (emit quiet_fn "ping" 4 (pause st) = ([], Normal false (pause st)) ∧
   after = pause st ∧
   buffer after = [] ∧
   resume quiet_fn after = ([], Normal tt (set_buffer [] (set_paused false after))) ∧
   emit quiet_fn "ping" 4 (state_of (resume quiet_fn after).2)
   = dispatch quiet_fn "ping" 4 (state_of (resume quiet_fn after).2)).
Proof.
  intros st pubs after.
  split; [split; reflexivity|].
  exact (C10_zero_bound_disables_buffering quiet_fn st pubs "ping" 4
           eq_refl eq_refl).
Defined.

(** * Further properties *)

(** ** The matcher *)

(** X1: [matchWildcard] decides the matching relation of the segment
    sequences: it answers true exactly when the pattern segments match
    the event segments with [**] standing for any run of segments (the
    empty one included), [*] for one segment and any other segment for
    itself, and false exactly when they do not. *)
Theorem X1_matchWildcard_decides_segments_match p e :
  (matchWildcard p e = true ↔ segments_match (split p) (split e)) ∧
  (matchWildcard p e = false ↔ ¬ segments_match (split p) (split e)).
Proof.
  pose proof (matchWildcard_segments_match p e) as H. split; [done|].
  rewrite <- H. by destruct (matchWildcard p e).
Qed.

(** X2: the main loop of [matchWildcard] ends, for every pattern and
    event, within [(|event| + 1) * (|pattern| + 1) + |pattern| + 1]
    evaluations of its guard, counted in segments; further iterations
    allowed change nothing, and the answer is the one of the loop. *)
Theorem X2_matchWildcard_loop_ends p e extra :
  ∃ r,
    Matcher.main_loop (Matcher.enough_fuel (split p) (split e) + extra)
      (split p) (split e) Matcher.start = Some r ∧
    Matcher.finish (split p) (Some r) = Some (matchWildcard p e).
Proof.
  pose proof (MatcherFacts.main_loop_total (split p) (split e)) as Htotal.
  pose proof (matchWildcard_total p e) as Hres. unfold Matcher.match_parts in Hres.
  destruct (Matcher.main_loop _ _ _ _) as [r|] eqn:Hrun; [|done].
  exists r. split; [|done]. by apply MatcherFacts.main_loop_more_fuel.
Qed.

(** X3: the two delimiters are interchangeable, in the pattern and in
    the event, for patterns with wildcards too: writing [':'] for every
    ['.'] changes no answer. *)
Theorem X3_matchWildcard_separators p e :
  matchWildcard (canon p) (canon e) = matchWildcard p e.
Proof. unfold matchWildcard. by rewrite !split_canon. Qed.

(** X4: the pattern ["**"] matches every event name, the empty name
    included. *)
Theorem X4_double_star_matches_every_name e : matchWildcard "**" e = true.
Proof. apply matchWildcard_segments_match. apply GlobFacts.match_all. Qed.

(** X5: for a prefix [s] without wildcard segment, the pattern [s:**]
    matches exactly the events whose segments start with those of [s],
    the event [s] itself included. *)
Theorem X5_trailing_double_star_is_prefix s e :
  wildcard_free s →
  matchWildcard (s +:+ ":**") e = true ↔ split s `prefix_of` split e.
Proof.
  intros [Hone Hrun].
  rewrite matchWildcard_segments_match, split_snoc_double_star.
  rewrite GlobFacts.match_other_prefix by done. split.
  - intros (e1 & e2 & -> & H1 & _).
    apply GlobFacts.Forall2_one_segment_literal in H1 as <-; [|done].
    by exists e2.
  - intros [k ->]. exists (split s), k. split; [done|].
    split; [|apply GlobFacts.match_all].
    apply Forall2_same_length_lookup_2; [done|].
    intros i x y Hx Hy. right. congruence.
Qed.

(** X5 at the prefix ["user:a"] and the event ["user:a:b.c"]. *)
Lemma X5_trailing_double_star_witness :
  matchWildcard ("user:a" +:+ ":**") "user:a:b.c" = true
  ↔ split "user:a" `prefix_of` split "user:a:b.c".
Proof.
  apply X5_trailing_double_star_is_prefix.
  split; apply (bool_decide_unpack _); vm_compute; exact I.
Defined.

(** X6: a pattern without [**] segment matches an event exactly when
    both have the same number of segments and each pattern segment is
    [*] or equal to the event segment at its place. *)
Theorem X6_single_stars_match_segment_by_segment p e :
  "**" ∉ split p →
  matchWildcard p e = true ↔ Forall2 one_segment (split p) (split e).
Proof.
  intros Hp. rewrite matchWildcard_segments_match.
  by apply GlobFacts.match_no_run.
Qed.

(** X6 at the pattern ["user:*:edit"] and the event ["user.42.edit"]. *)
Lemma X6_single_stars_witness :
  matchWildcard "user:*:edit" "user.42.edit" = true
  ↔ Forall2 one_segment (split "user:*:edit") (split "user.42.edit").
Proof.
  apply X6_single_stars_match_segment_by_segment.
  apply (bool_decide_unpack _); vm_compute; exact I.
Defined.

(** ** The registries *)

(** X7: the shape of the registries is an invariant: in the initial
    state, and after every sequence of public operations from a state
    that has it (with listeners that keep it), the map holds no empty
    list and no key with a ['*'], every wildcard pattern has a ['*'],
    and every exact-name list and the wildcard list are in descending
    priority. *)
Theorem X7_registries_stay_tidy
    {Payload Err} (apply_fn : FnId → Payload → Emitter Payload
                              → Completion Payload Err unit)
    (options : option (EmitterOptions Payload Err)) ops st :
  tidy_preserving apply_fn → tidy st →
  tidy (new_Emitter options) ∧ tidy (run_ops apply_fn ops st).
Proof.
  intros Hf Hst. split; [by apply tidy_empty|by apply run_ops_tidy].
Qed.

(** X7 on [three_while_paused] from the initial state. *)
Lemma X7_registries_stay_tidy_witness :
  tidy (new_Emitter (Payload:=Z) (Err:=string) None) ∧
  tidy (run_ops quiet_fn three_while_paused (new_Emitter (Err:=string) None)).
Proof.
  apply (X7_registries_stay_tidy quiet_fn None three_while_paused).
  - apply inert_tidy_preserving, quiet_fn_inert.
  - by apply tidy_empty.
Defined.

(** X8: in a state of that shape, the map has a key for an event
    exactly when [listenerCount] of the event is positive. *)
Theorem X8_key_present_iff_counted {Payload} (st : Emitter Payload) event :
  tidy st →
  is_Some (listeners st !! event) ↔ (0 < listenerCount event st)%nat.
Proof.
  intros Hst. unfold listenerCount.
  destruct (listeners st !! event) as [l|] eqn:Hl; simpl.
  - split; [intros _|by eauto].
    pose proof (tidy_nonempty st Hst _ l Hl). destruct l; [done|simpl; lia].
  - split; [by intros [? ?]|lia].
Qed.

(** X8 on [exact_and_once_wildcard] and the event ["user:login"]. *)
Lemma X8_key_present_witness :
  is_Some (listeners exact_and_once_wildcard !! "user:login")
  ↔ (0 < listenerCount "user:login" exact_and_once_wildcard)%nat.
Proof.
  apply X8_key_present_iff_counted, exact_and_once_wildcard_tidy.
Defined.

(** X9: [on] raises [listenerCount] of its event by one and leaves the
    count of every other event; a subscription under a pattern with a
    ['*'] changes no count. *)
Theorem X9_listenerCount_after_on
    {Payload} (st : Emitter Payload) event listener options e :
  listenerCount e (on event listener options st).2
  = if includes_star event then listenerCount e st
    else if decide (e = event) then S (listenerCount e st)
         else listenerCount e st.
Proof.
  rewrite !listenerCount_exact_of, on_exact_of.
  destruct (includes_star event); [done|].
  destruct (decide (e = event)) as [->|]; [|done].
  rewrite length_js_sort, length_app. simpl. lia.
Qed.

(** X10: [on] writes a warning exactly when the event has no ['*'], the
    threshold is positive and the list of the event, the new entry
    counted, is longer than the threshold; the line names the event,
    that length and the threshold.  So every subscription past the
    threshold warns again, and none under a pattern does. *)
Theorem X10_warning_condition
    {Payload} (st : Emitter Payload) event listener options :
  console (on event listener options st).2
  = if negb (includes_star event)
       && (0 <? maxListeners st)
       && (maxListeners st <? Z.of_nat (S (listenerCount event st)))
    then console st
         ++ [mkWarning event (S (listenerCount event st)) (maxListeners st)]
    else console st.
Proof.
  rewrite listenerCount_exact_of. unfold on, exact_of. simpl.
  destruct (includes_star event); [done|]. simpl.
  rewrite length_js_sort, length_app. simpl.
  replace (length (default [] (listeners st !! event)) + 1)%nat
    with (S (length (default [] (listeners st !! event)))) by lia.
  by destruct (_ && _).
Qed.

(** X11: what a subscription changes in what is collected: the new
    entry is collected for the event of the subscription, or, under a
    pattern with a ['*'], for the events the pattern matches, and for
    no other event; every other entry is collected for the events it
    was collected for before. *)
Theorem X11_collected_after_on
    {Payload} (st : Emitter Payload) event listener options e x :
  x ∈ collectListeners e (on event listener options st).2
  ↔ x ∈ collectListeners e st
    ∨ x = new_entry listener options st
      ∧ (if includes_star event then matchWildcard event e = true
         else e = event).
Proof.
  rewrite !elem_of_collectListeners, !elem_of_wild_matching.
  rewrite on_exact_of, on_wildcardListeners.
  destruct (includes_star event).
  - setoid_rewrite elem_of_js_sort. setoid_rewrite elem_of_app.
    setoid_rewrite list_elem_of_singleton. split.
    + intros [Hin|(w & [Hw| ->] & <- & Hm)]; [by left; left| |by right].
      left. right. by exists w.
    + intros [[Hin|(w & Hw & <- & Hm)]|[-> Hm]]; [by left| |].
      * right. exists w. by auto.
      * right. exists (mkWild event (new_entry listener options st)). by auto.
  - destruct (decide (e = event)) as [->|Hne].
    + rewrite elem_of_js_sort, elem_of_app, list_elem_of_singleton. tauto.
    + tauto.
Qed.

(** ** Handles *)

(** X12: in a consistent state of that shape, subscribing and calling
    [off] on the handle at once leaves both registries as they were:
    the key of a first listener is deleted again, and no other entry
    has moved. *)
Theorem X12_off_undoes_on
    {Payload} (st : Emitter Payload) event listener options :
  tidy st → consistent st →
  same_registry (off (on event listener options st).1
                     (on event listener options st).2) st.
Proof.
  intros Hst Hcons. pose proof (new_entry_fresh listener options st Hcons) as Hfresh.
  rewrite on_handle. unfold same_registry, off.
  cbn [sub_isWild sub_event sub_stored].
  destruct (includes_star event) eqn:Hstar.
  - cbn [listeners wildcardListeners set_wildcardListeners].
    rewrite on_listeners, on_wildcardListeners, Hstar. split; [done|].
    destruct (js_sort_push (priority ∘ stored) by_stored_priority (λ _ _, eq_refl)
                (mkWild event (new_entry listener options st))
                (wildcardListeners st) (tidy_wild st Hst))
      as (l1 & l2 & Hl & ->).
    rewrite splice_found_middle; [done| |by apply bool_decide_eq_true_2].
    intros w Hw. apply bool_decide_eq_false_2. intros Heq. apply Hfresh. right.
    rewrite <- Heq, Hl, fmap_app, elem_of_app. left. by apply list_elem_of_fmap_2.
  - pose proof (on_wildcardListeners event listener options st) as Hw.
    pose proof (on_listeners event listener options st) as Hm.
    rewrite Hstar in Hw, Hm. rewrite Hm, lookup_insert_eq.
    destruct (js_sort_push priority by_priority by_priority_key
                (new_entry listener options st)
                (exact_of event st) (tidy_exact st Hst event))
      as (l1 & l2 & Hl & ->).
    rewrite splice_found_middle; [| |by apply bool_decide_eq_true_2].
    + rewrite <- Hl. case_bool_decide as Hlen;
        pose proof (tidy_lookup event st Hst) as Hlook.
      * rewrite bool_decide_eq_true_2 in Hlook by by apply nil_length_inv.
        cbn [listeners wildcardListeners set_listeners].
        split; [|done]. rewrite delete_insert_eq. by apply delete_id.
      * rewrite bool_decide_eq_false_2 in Hlook
          by (intros Heq; by rewrite Heq in Hlen).
        cbn [listeners wildcardListeners set_listeners].
        split; [|done]. rewrite insert_insert_eq. by apply insert_id.
    + intros y Hy. apply bool_decide_eq_false_2. intros ->. apply Hfresh. left.
      exists event. rewrite Hl, elem_of_app. by left.
Qed.

(** X12 on [exact_and_once_wildcard] and a second listener of
    ["user:login"]. *)
Lemma X12_off_undoes_on_witness :
  same_registry
    (off (on "user:login" 5%nat (mkOptions None (Some 3)) exact_and_once_wildcard).1
         (on "user:login" 5%nat (mkOptions None (Some 3)) exact_and_once_wildcard).2)
    exact_and_once_wildcard.
Proof.
  apply X12_off_undoes_on.
  - apply exact_and_once_wildcard_tidy.
  - apply exact_and_once_wildcard_consistent.
Defined.

(** X13: a handle keeps working: after any sequence of public
    operations that follows the subscription (with listeners that keep
    the registries consistent), [off] removes the entry of the handle
    if it is still held, and no other entry. *)
Theorem X13_handle_removes_exactly_its_entry
    {Payload Err} (apply_fn : FnId → Payload → Emitter Payload
                              → Completion Payload Err unit)
    (st0 : Emitter Payload) event listener options ops x :
  disciplined apply_fn → consistent st0 →
  let sub := (on event listener options st0).1 in
  let st' := run_ops apply_fn ops (on event listener options st0).2 in
  registered x (off sub st') ↔ registered x st' ∧ x ≠ sub_stored sub.
Proof.
  intros Hf Hst sub st'. apply off_removes_exactly; [done|].
  apply run_ops_reached; [done|by apply on_consistent].
Qed.

(** X13 on a handle for ["user:logout"] taken on
    [exact_and_once_wildcard], after a publish of ["user:login"] in
    which a listener subscribes another and a once entry is pruned,
    and a [clear] of that event; [x] is that once entry. *)
Lemma X13_handle_removes_witness :
  let st0 := exact_and_once_wildcard in
  let sub := (on "user:logout" 5%nat no_options st0).1 in
  let st' := run_ops subscribing_fn
               [OpEmit "user:login" 7; OpClear (Some "user:login")]
               (on "user:logout" 5%nat no_options st0).2 in
  let x := mkStored 1%nat 1%nat true 0 in
  registered x (off sub st') ↔ registered x st' ∧ x ≠ sub_stored sub.
Proof.
  intros st0 sub st' x.
  apply (X13_handle_removes_exactly_its_entry subscribing_fn st0
           "user:logout" 5%nat no_options
           [OpEmit "user:login" 7; OpClear (Some "user:login")] x).
  - apply subscribing_fn_disciplined.
  - apply exact_and_once_wildcard_consistent.
Defined.

(** X14: in a well-formed state, calling [off] a second time changes
    nothing. *)
Theorem X14_off_twice {Payload} (st : Emitter Payload) sub :
  well_formed st → off sub (off sub st) = off sub st.
Proof.
  intros Hwf. apply off_noop.
  - intros Hw. rewrite off_wildcardListeners, Hw.
    apply (splice_found_removes stored (sub_stored sub) _ (wf_wild _ Hwf)).
  - intros Hw l. unfold off. rewrite Hw.
    destruct (listeners st !! sub_event sub) as [l0|] eqn:Hl0;
      [|by rewrite Hl0].
    simpl. case_bool_decide as Hlen; simpl.
    + by rewrite lookup_delete_eq.
    + rewrite lookup_insert_eq. intros [= <-]. split.
      * pose proof (splice_found_removes id (sub_stored sub) l0) as H.
        rewrite !list_fmap_id in H. apply H.
        pose proof (wf_exact _ Hwf (sub_event sub)) as Hnd.
        unfold exact_of in Hnd. by rewrite Hl0 in Hnd.
      * intros Heq. by rewrite Heq in Hlen.
Qed.

(** X14 on [changes_while_paused] and the handle of its second
    listener of ["tick"]. *)
Lemma X14_off_twice_witness :
  let sub := mkSubscription false "tick" (mkStored 1%nat 2%nat false 0) in
  off sub (off sub changes_while_paused) = off sub changes_while_paused.
Proof.
  intros sub. apply X14_off_twice, changes_while_paused_well_formed.
Defined.

(** X15: in a state of that shape, [off] on a handle whose entry is not
    held (removed before, by [off], by [clear] or as a once entry that
    fired) leaves the whole state as it is. *)
Theorem X15_off_of_absent_entry {Payload} (st : Emitter Payload) sub :
  tidy st → ¬ registered (sub_stored sub) st → off sub st = st.
Proof.
  intros Hst Hreg. apply off_noop.
  - intros _ Hin. apply Hreg. by right.
  - intros _ l Hl. split; [|by eapply tidy_nonempty].
    intros Hin. apply Hreg. left. exists (sub_event sub).
    unfold exact_of. by rewrite Hl.
Qed.

(** X15 on [changes_while_paused] and the handle removed there. *)
Lemma X15_off_of_absent_witness :
  off first_tick_handle changes_while_paused = changes_while_paused.
Proof.
  apply X15_off_of_absent_entry.
  - apply changes_while_paused_tidy.
  - apply first_tick_unregistered.
Defined.

(** ** Publishing *)

(** X16: [emit] returns true exactly when it has called a listener; a
    publish that ends with a throw has called one. *)
Theorem X16_emit_true_iff_called
    {Payload Err} (apply_fn : FnId → Payload → Emitter Payload
                              → Completion Payload Err unit)
    event p st :
  match emit apply_fn event p st with
  | (calls, Normal b _) => b = true ↔ calls ≠ []
  | (calls, Throw _ _) => calls ≠ []
  end.
Proof.
  unfold emit. destruct (paused st); [done|].
  rewrite dispatch_unfold.
  destruct (collectListeners event st) as [|s ls]; [done|].
  pose proof (invoke_all_calls apply_fn s ls p st) as Hcalls.
  destruct (invoke_all apply_fn (s :: ls) p st) as [calls [[] st'|e st']]; done.
Qed.

(** X17: after [clear()] on an active emitter every publish returns
    false, calls no listener and changes nothing. *)
Theorem X17_clear_all_silences
    {Payload Err} (apply_fn : FnId → Payload → Emitter Payload
                              → Completion Payload Err unit)
    st event p :
  paused st = false →
  emit apply_fn event p (clear None st) = ([], Normal false (clear None st)).
Proof. intros Hp. by apply emit_empty. Qed.

(** X17 on [exact_and_once_wildcard]. *)
Lemma X17_clear_all_witness :
  emit quiet_fn "user:login" 7 (clear None exact_and_once_wildcard)
  = ([], Normal false (clear None exact_and_once_wildcard)).
Proof.
  apply X17_clear_all_silences. vm_compute. reflexivity.
Defined.

(** X18: in a state of that shape, [clear(event)] for a name without
    ['*'] removes the exact-name listeners of the event and nothing
    else: what is collected for the event afterwards are the wildcard
    entries that match it, in their order, and what is collected for
    any other event is unchanged. *)
Theorem X18_clear_event_keeps_wildcards
    {Payload} (st : Emitter Payload) ev e :
  tidy st → includes_star ev = false →
  collectListeners e (clear (Some ev) st)
  = if decide (e = ev) then wild_matching ev st else collectListeners e st.
Proof.
  intros Hst Hev.
  assert (Hw : wildcardListeners (clear (Some ev) st) = wildcardListeners st).
  { simpl. apply filter_all. eapply Forall_impl; [apply (tidy_patterns st Hst)|].
    simpl. intros w Hw Heq. congruence. }
  rewrite !collectListeners_eq. unfold wild_matching. rewrite Hw.
  unfold exact_of. simpl.
  destruct (decide (e = ev)) as [->|Hne].
  - rewrite lookup_delete_eq. simpl.
    apply (js_sort_sorted priority by_priority by_priority_key).
    apply descending_fmap.
    apply (descending_sublist _ _ (wildcardListeners st));
      [apply sublist_filter|apply (tidy_wild st Hst)].
  - by rewrite lookup_delete_ne.
Qed.

(** X18 on [exact_and_once_wildcard]: after [clear("user:login")] the
    listener under ["user:*"] still is collected for ["user:login"]. *)
Lemma X18_clear_event_witness :
  collectListeners "user:login" (clear (Some "user:login") exact_and_once_wildcard)
  = if decide ("user:login" = "user:login")
    then wild_matching "user:login" exact_and_once_wildcard
    else collectListeners "user:login" exact_and_once_wildcard.
Proof.
  apply X18_clear_event_keeps_wildcards.
  - apply exact_and_once_wildcard_tidy.
  - reflexivity.
Defined.

(** X19: after [dispose] the emitter is active with nothing buffered
    and nothing subscribed: [resume] calls nothing, a publish returns
    false and changes nothing, every count is zero; the two limits are
    the ones set before. *)
Theorem X19_dispose_leaves_an_idle_emitter
    {Payload Err} (apply_fn : FnId → Payload → Emitter Payload
                              → Completion Payload Err unit)
    st event p :
  let st' := dispose st in
  resume apply_fn st' = ([], Normal tt st') ∧
  emit apply_fn event p st' = ([], Normal false st') ∧
  (∀ e, listenerCount e st' = 0%nat) ∧
  maxListeners st' = maxListeners st ∧
  maxBufferSize st' = maxBufferSize st.
Proof.
  intros st'. split; [by apply resume_idle|]. split; [by apply emit_empty|].
  split; [|done]. intros e. unfold listenerCount. simpl.
  by rewrite lookup_empty.
Qed.

(** ** Pause and resume *)

(** X20: a run of publishes on a paused emitter appends to the buffer
    the first of them that still fit under the bound, drops the others,
    and changes nothing else. *)
Theorem X20_paused_publishes_fill_the_buffer
    {Payload Err} (apply_fn : FnId → Payload → Emitter Payload
                              → Completion Payload Err unit)
    pubs st :
  paused st = true →
  publish_all apply_fn pubs st
  = set_buffer
      (buffer st
       ++ take (Z.to_nat (maxBufferSize st - Z.of_nat (length (buffer st)))) pubs)
      st.
Proof. apply publish_all_paused. Qed.

(** X20 on a paused initial emitter and two publishes. *)
Lemma X20_paused_publishes_witness :
  let st := pause (new_Emitter (Err:=string) None) in
  let pubs := [("ping", 1); ("pong", 2)] in
  publish_all quiet_fn pubs st
  = set_buffer
      (buffer st
       ++ take (Z.to_nat (maxBufferSize st - Z.of_nat (length (buffer st)))) pubs)
      st.
Proof.
  intros st pubs. apply X20_paused_publishes_fill_the_buffer. reflexivity.
Defined.

(** X21: on an active emitter with nothing buffered, pausing,
    publishing events that fit under the bound and resuming is the loop
    of dispatches of these events in order, whatever the listeners do;
    with listeners that return without changing the emitter, the state
    it leaves is the one the same publishes leave without the pause. *)
Theorem X21_pause_resume_is_transparent
    {Payload Err} (apply_fn : FnId → Payload → Emitter Payload
                              → Completion Payload Err unit)
    pubs st :
  paused st = false → buffer st = [] →
  Z.of_nat (length pubs) ≤ maxBufferSize st →
  let run := resume apply_fn (publish_all apply_fn pubs (pause st)) in
  run = replay apply_fn pubs st ∧
  (inert apply_fn → state_of run.2 = publish_all apply_fn pubs st).
Proof.
  intros Hp Hb Hlen run. subst run.
  rewrite resume_after_pause by done. split; [done|].
  intros Hf. by apply replay_inert_state.
Qed.

(** X21 on [exact_and_once_wildcard] and two publishes, the first with
    a listener that throws, and with listeners that do nothing. *)
Lemma X21_pause_resume_witness :
  let st := exact_and_once_wildcard in
  let pubs := [("user:login", 1); ("user:logout", 2)] in
  (let run := resume middle_throws (publish_all middle_throws pubs (pause st)) in
   run = replay middle_throws pubs st ∧
   (inert middle_throws → state_of run.2 = publish_all middle_throws pubs st)) ∧
  (let run := resume quiet_fn (publish_all quiet_fn pubs (pause st)) in
   run = replay quiet_fn pubs st ∧
   state_of run.2 = publish_all quiet_fn pubs st).
Proof.
  intros st pubs.
  assert (Hp : paused st = false) by (vm_compute; reflexivity).
  assert (Hb : buffer st = []) by (vm_compute; reflexivity).
  assert (Hlen : Z.of_nat (length pubs) ≤ maxBufferSize st)
    by (apply (bool_decide_unpack _); vm_compute; exact I).
  split.
  - exact (X21_pause_resume_is_transparent middle_throws pubs st Hp Hb Hlen).
  - destruct (X21_pause_resume_is_transparent quiet_fn pubs st Hp Hb Hlen)
      as [H1 H2].
    split; [exact H1|exact (H2 quiet_fn_inert)].
Defined.



(** X23: with listeners that return without changing the emitter, a
    dispatch on a well-formed state removes the once entries it has
    called and nothing else: an entry is held afterwards exactly when
    it was held before and is not a once entry collected for the
    event. *)
Theorem X23_dispatch_prunes_exactly_the_once_entries
    {Payload Err} (apply_fn : FnId → Payload → Emitter Payload
                              → Completion Payload Err unit)
    event p st x :
  inert apply_fn → well_formed st →
  registered x (state_of (dispatch apply_fn event p st).2)
  ↔ registered x st ∧ ¬ (once x = true ∧ x ∈ collectListeners event st).
Proof.
  intros Hf Hwf. destruct (dispatch_inert_eq apply_fn event p st Hf) as [b ->].
  cbn [snd state_of]. split.
  - intros Hreg. split; [by eapply pruneOnce_registered|].
    intros [Honce Hin]. by apply (pruneOnce_removes event st x Hwf Honce Hin).
  - intros [Hreg Hkeep].
    assert (x ∉ once_of (collectListeners event st)) as Hx.
    { unfold once_of. rewrite list_elem_of_filter. tauto. }
    destruct Hreg as [[e Hin]|Hin].
    + left. exists e. by apply pruneOnce_spares_exact.
    + right. apply list_elem_of_fmap in Hin as (w & -> & Hw).
      apply list_elem_of_fmap_2. by apply pruneOnce_spares_wild.
Qed.

(** X23 on [exact_and_once_wildcard], a publish of ["user:login"] and
    the once entry under ["user:*"]. *)
Lemma X23_dispatch_prunes_witness :
  let x := mkStored 1%nat 1%nat true 0 in
  registered x
    (state_of (dispatch quiet_fn "user:login" 7 exact_and_once_wildcard).2)
  ↔ registered x exact_and_once_wildcard
    ∧ ¬ (once x = true
         ∧ x ∈ collectListeners "user:login" exact_and_once_wildcard).
Proof.
  intros x. apply X23_dispatch_prunes_exactly_the_once_entries.
  - apply quiet_fn_inert.
  - apply exact_and_once_wildcard_consistent.
Defined.
